(** * path-sanitizer: a shallow embedding of [sanitize] and its properties

    The development follows the single source function [sanitize] together
    with the constant [DEFAULT_OPTIONS].  The JavaScript primitives the
    function calls ([String.prototype.replace] with a regular expression,
    [startsWith], [endsWith], [slice], template-literal coercion and the
    POSIX flavour of Node's [path.normalize] and [path.join]) are modelled
    in the modules [JsString], [RegExp], [JsValue] and [Path]; module
    [Sanitizer] is the translation of the source file itself.

    Conventions.
    - A JavaScript string is a sequence of code units.  Every test the
      pipeline makes on a code unit compares it with an ASCII character, so
      a string is modelled as a Rocq [string], worked on as [list ascii].
    - [path] is the POSIX implementation: [/] is the only separator that
      [path.normalize] and [path.join] recognise.
    - The [while] loops of the source are run with an explicit iteration
      budget; running out of it is the outcome [OutOfFuel].
    - The source has no strict-mode directive: a write that an object
      does not take is dropped and raises nothing.
    - Arguments are the values of [JsValue.value]: [undefined], [null],
      booleans, numbers (the safe integers, [NaN] and the infinities),
      BigInts, strings, symbols, and objects, functions among them.  Of an
      object the model keeps what [sanitize] touches: whether it is a
      function, what each of the three option fields holds, whether it
      takes writes, and what converting it to text gives or raises.  A
      field is a data property of the object itself and is missing, holds
      a falsy value, or holds what the source expects there: a list of
      decode rules, or a regular-expression object of the fragment in
      [RegExp]; replacement strings are taken literally.  Numbers with a
      fraction or beyond the safe integers, accessor properties, proxies
      and fields holding a truthy value of another kind are outside the
      model. *)

From Stdlib Require Import List String Ascii Bool Arith ZArith Lia DecimalString.
Import ListNotations.

Local Open Scope list_scope.

(** ** Strings as lists of characters *)

Module JsString.

Definition text := list ascii.

Definition of_string (s : string) : text := list_ascii_of_string s.
Definition to_string (t : text) : string := string_of_list_ascii t.

Definition slash : ascii := "/"%char.
Definition backslash : ascii := "\"%char.
Definition dot : ascii := "."%char.

(** [s.startsWith(c)] and [s.endsWith(c)] for a one-character argument. *)
Definition startsWith (c : ascii) (s : text) : bool :=
  match s with
  | x :: _ => Ascii.eqb x c
  | [] => false
  end.

Definition endsWith (c : ascii) (s : text) : bool :=
  match rev s with
  | x :: _ => Ascii.eqb x c
  | [] => false
  end.

(** [s.slice(1)] and [s.slice(0, -1)]. *)
Definition slice_from_1 (s : text) : text := tl s.
Definition slice_to_last (s : text) : text := removelast s.

(** Does [needle] occur in [s] as a contiguous substring? *)
Fixpoint prefix_of (p s : text) : bool :=
  match p, s with
  | [], _ => true
  | _ :: _, [] => false
  | a :: p', b :: s' => Ascii.eqb a b && prefix_of p' s'
  end.

Fixpoint includes (needle s : text) : bool :=
  prefix_of needle s ||
  match s with
  | [] => false
  | _ :: s' => includes needle s'
  end.

End JsString.

(** ** Regular expressions and [String.prototype.replace]

    The fragment of the regular-expression language that the source file
    writes: literal characters, character classes, sequence, alternation,
    the greedy quantifiers [?], [*] and [+], and the anchor [^].  Matching
    is the backtracking search of the language definition: alternatives are
    tried left to right, quantifiers take as much as they can and give back
    on failure. *)

Module RegExp.
Import JsString.

Inductive re : Type :=
| Eps                        (* the empty pattern *)
| Bol                        (* ^ *)
| Chr (c : ascii)            (* a literal character, escaped or not *)
| Class (cs : list ascii)    (* [...] *)
| Seq (a b : re)
| Alt (a b : re)             (* a|b *)
| Opt (a : re)               (* a? *)
| Star (a : re).             (* a* *)

(** [a+] *)
Definition Plus (a : re) : re := Seq a (Star a).

(** A regular-expression object: its pattern and its [g] flag. *)
Record regexp : Type := mkRegExp { pattern : re; global : bool }.

Definition in_class (x : ascii) (cs : list ascii) : bool :=
  existsb (Ascii.eqb x) cs.

(** The iterations of [a*], the matcher [m] standing for [a]: keep
    matching [a] while it consumes something, up to [n] times, then go on
    with [k]; on failure undo the last iteration and go on from there.
    Each kept iteration consumes a character, so [n] = the length of the
    text is never exhausted before the text is. *)
Fixpoint star_iter (m : bool -> text -> (bool -> text -> option text) -> option text)
         (k : bool -> text -> option text)
         (n : nat) (bol : bool) (s : text) {struct n} : option text :=
  match n with
  | O => k bol s
  | S n' =>
      match m bol s
              (fun bol' s' =>
                 if List.length s' <? List.length s
                 then star_iter m k n' bol' s' else None)
      with
      | Some t => Some t
      | None => k bol s
      end
  end.

(** [rmatch r bol s k]: match [r] at the front of [s] ([bol] tells whether
    the front of [s] is the start of the input) and hand what is left to
    the continuation [k]; the answer is the text that follows the whole
    match. *)
Fixpoint rmatch (r : re) (bol : bool) (s : text)
         (k : bool -> text -> option text) {struct r} : option text :=
  match r with
  | Eps => k bol s
  | Bol => if bol then k bol s else None
  | Chr c =>
      match s with
      | x :: s' => if Ascii.eqb x c then k false s' else None
      | [] => None
      end
  | Class cs =>
      match s with
      | x :: s' => if in_class x cs then k false s' else None
      | [] => None
      end
  | Seq a b => rmatch a bol s (fun bol' s' => rmatch b bol' s' k)
  | Alt a b =>
      match rmatch a bol s k with
      | Some t => Some t
      | None => rmatch b bol s k
      end
  | Opt a =>
      match rmatch a bol s k with
      | Some t => Some t
      | None => k bol s
      end
  | Star a => star_iter (rmatch a) k (List.length s) bol s
  end.

(** The match of [r] at the front of [s], as the text left after it. *)
Definition match_here (r : re) (bol : bool) (s : text) : option text :=
  rmatch r bol s (fun _ rest => Some rest).

(** [s.replace(/r/g, by)]: scan left to right; at each position not inside
    a previous match try [r]; a match is replaced by [by_] and the scan
    resumes after it (one character further after an empty match, which
    copies that character).  [skip] counts the characters of the current
    match still to be dropped. *)
Fixpoint replace_global (r : re) (by_ : text) (bol : bool) (skip : nat)
         (s : text) {struct s} : text :=
  match s with
  | [] =>
      match skip with
      | O => match match_here r bol [] with
             | Some _ => by_
             | None => []
             end
      | S _ => []
      end
  | c :: s' =>
      match skip with
      | S n => replace_global r by_ false n s'
      | O =>
          match match_here r bol s with
          | Some rest =>
              match List.length s - List.length rest with
              | O => by_ ++ c :: replace_global r by_ false 0 s'
              | S n => by_ ++ replace_global r by_ false n s'
              end
          | None => c :: replace_global r by_ false 0 s'
          end
      end
  end.

(** [s.replace(/r/, by)]: only the leftmost match is replaced. *)
Fixpoint replace_first (r : re) (by_ : text) (bol : bool) (s : text)
         {struct s} : text :=
  match match_here r bol s with
  | Some rest => by_ ++ rest
  | None =>
      match s with
      | [] => []
      | c :: s' => c :: replace_first r by_ false s'
      end
  end.

(** [s.replace(rx, by)] for a replacement string without [$] patterns. *)
Definition replace (rx : regexp) (by_ : text) (s : text) : text :=
  if global rx
  then replace_global (pattern rx) by_ true 0 s
  else replace_first (pattern rx) by_ true s.

(** A pattern for a literal string, as in [/%2e/]. *)
Fixpoint literal (s : text) : re :=
  match s with
  | [] => Eps
  | [c] => Chr c
  | c :: s' => Seq (Chr c) (literal s')
  end.

End RegExp.

(** ** JavaScript values, truthiness, [typeof] and text coercion *)

Module JsValue.
Import JsString RegExp.

(** One decode rule: [{ regex: ..., replacement: ... }]. *)
Record decode_rule : Type :=
  mkRule { regex : regexp; replacement : text }.

(** The three fields of an options object written as an object literal in
    which each field is either left out ([None]) or given a value of the
    kind the source expects there: an array of decode rules, a
    regular-expression object. *)
Record options_object : Type := mkOptions {
  decode : option (list decode_rule);
  parentDirectoryRegEx : option regexp;
  notAllowedRegEx : option regexp
}.

(** The failures a call can end with. *)
Inductive js_error : Type :=
| Error (message : string)   (* [throw new Error(message)] *)
| TypeError                  (* raised by the language itself *)
| Thrown (what : string).    (* any other value thrown by caller code *)

(** A falsy value held by a field, and its text. *)
Inductive falsy_value : Type :=
| FUndefined | FNull | FFalse | FZero | FNaN | FEmptyString.

Definition falsy_text (v : falsy_value) : string :=
  match v with
  | FUndefined => "undefined"
  | FNull => "null"
  | FFalse => "false"
  | FZero => "0"
  | FNaN => "NaN"
  | FEmptyString => ""
  end%string.

(** What reading [object.field] finds: no such field, a falsy value, or a
    value of the kind the source expects (always truthy: an array, a
    regular-expression object). *)
Inductive field (A : Type) : Type :=
| Absent
| Falsy (v : falsy_value)
| Holds (a : A).
Arguments Absent {A}.
Arguments Falsy {A} v.
Arguments Holds {A} a.

(** Whether an object takes writes: an ordinary object does; after
    [Object.preventExtensions] or [Object.seal] no field can be added;
    after [Object.freeze] no field can be added or changed.  The source is
    not in strict mode, so a write the object does not take is dropped
    without a failure. *)
Inductive integrity : Type :=
| Extensible
| NonExtensible
| Frozen.

(** How converting an object to text ends (its own [toString], [valueOf]
    or [Symbol.toPrimitive], or the inherited ones): with a text, or with
    whatever the conversion raises.  An object literal converts to
    ["[object Object]"]; [Object.create(null)] raises [TypeError]. *)
Inductive conversion : Type :=
| ConvertsTo (s : string)
| ConversionRaises (e : js_error).

(** An object, as far as [sanitize] can see it: whether it is a function
    ([typeof] then answers ['function']), what its three option fields
    hold, whether it takes writes, and how it converts to text. *)
Record js_object : Type := mkObject {
  callable : bool;
  decode_field : field (list decode_rule);
  parentDirectoryRegEx_field : field regexp;
  notAllowedRegEx_field : field regexp;
  integrity_level : integrity;
  conversion_to_text : conversion
}.

Definition field_of_option {A : Type} (o : option A) : field A :=
  match o with
  | Some a => Holds a
  | None => Absent
  end.

(** The object that an object literal with the fields of [o] creates. *)
Definition plain (o : options_object) : js_object := {|
  callable := false;
  decode_field := field_of_option (decode o);
  parentDirectoryRegEx_field := field_of_option (parentDirectoryRegEx o);
  notAllowedRegEx_field := field_of_option (notAllowedRegEx o);
  integrity_level := Extensible;
  conversion_to_text := ConvertsTo "[object Object]"
|}.

(** The integers that a number holds exactly and prints as their decimal
    digits: those of magnitude at most 2^53 - 1. *)
Definition safe_integer (z : Z) : bool :=
  (Z.abs z <=? 9007199254740991)%Z.

(** The values a caller can pass.  [VNumber z _] is the number whose value
    is the safe integer [z] (the number [-0] tests and prints as [0] does);
    [VInfinity negative] is [Infinity] or [-Infinity]; [VBigInt z] is the
    BigInt [z]. *)
Inductive value : Type :=
| VUndefined
| VNull
| VBool (b : bool)
| VNumber (z : Z) (safe : safe_integer z = true)
| VNaN
| VInfinity (negative : bool)
| VBigInt (z : Z)
| VString (s : string)
| VSymbol (description : string)
| VObj (x : js_object).

(** The value of an object literal with the fields of [o]. *)
Definition VObject (o : options_object) : value := VObj (plain o).

(** [!!v] *)
Definition truthy (v : value) : bool :=
  match v with
  | VUndefined | VNull | VNaN => false
  | VBool b => b
  | VNumber z _ | VBigInt z => negb (Z.eqb z 0)
  | VString s => negb (String.eqb s EmptyString)
  | VInfinity _ | VSymbol _ | VObj _ => true
  end.

(** [typeof v === 'object'] *)
Definition typeof_is_object (v : value) : bool :=
  match v with
  | VNull => true
  | VObj x => negb (callable x)
  | _ => false
  end.

(** The template literal [`${v}`]: the text of [v]; a [TypeError] when [v]
    is a symbol; for an object, what its conversion gives or raises. *)
Definition template_literal (v : value) : js_error + string :=
  match v with
  | VUndefined => inr "undefined"%string
  | VNull => inr "null"%string
  | VBool true => inr "true"%string
  | VBool false => inr "false"%string
  | VNumber z _ | VBigInt z => inr (NilZero.string_of_int (Z.to_int z))
  | VNaN => inr "NaN"%string
  | VInfinity false => inr "Infinity"%string
  | VInfinity true => inr "-Infinity"%string
  | VString s => inr s
  | VSymbol _ => inl TypeError
  | VObj x =>
      match conversion_to_text x with
      | ConvertsTo s => inr s
      | ConversionRaises e => inl e
      end
  end.

End JsValue.

(** ** Node's [path] module, POSIX flavour

    [normalize] and [join] work on the segments between [/] characters:
    empty segments and [.] are dropped, [..] removes the segment before it
    (or, in a relative path with nothing left to remove, is kept). *)

Module Path.
Import JsString.

(** [s.split('/')] *)
Fixpoint split (s : text) : list text :=
  match s with
  | [] => [[]]
  | c :: s' =>
      if Ascii.eqb c slash then [] :: split s'
      else match split s' with
           | seg :: segs => (c :: seg) :: segs
           | [] => [[c]]
           end
  end.

(** [segs.join('/')] *)
Fixpoint join_segments (segs : list text) : text :=
  match segs with
  | [] => []
  | [seg] => seg
  | seg :: segs' => seg ++ slash :: join_segments segs'
  end.

Definition text_eqb (a b : text) : bool :=
  if list_eq_dec ascii_dec a b then true else false.

Definition is_dot (seg : text) : bool := text_eqb seg [dot].
Definition is_dotdot (seg : text) : bool := text_eqb seg [dot; dot].

(** The segment walk of [normalizeString]; [kept] holds the segments kept
    so far, last one first. *)
Fixpoint resolve (allowAboveRoot : bool) (segs kept : list text) : list text :=
  match segs with
  | [] => rev kept
  | seg :: rest =>
      match seg with
      | [] => resolve allowAboveRoot rest kept
      | _ :: _ =>
          if is_dot seg then resolve allowAboveRoot rest kept
          else if is_dotdot seg then
            match kept with
            | top :: below =>
                if is_dotdot top
                then resolve allowAboveRoot rest
                       (if allowAboveRoot then seg :: kept else kept)
                else resolve allowAboveRoot rest below
            | [] =>
                resolve allowAboveRoot rest
                  (if allowAboveRoot then [seg] else [])
            end
          else resolve allowAboveRoot rest (seg :: kept)
      end
  end.

Definition normalizeString (path : text) (allowAboveRoot : bool) : text :=
  join_segments (resolve allowAboveRoot (split path) []).

(** [path.normalize(p)] *)
Definition normalize (path : text) : text :=
  match path with
  | [] => [dot]
  | _ :: _ =>
      let isAbsolute := startsWith slash path in
      let trailingSeparator := endsWith slash path in
      match normalizeString path (negb isAbsolute) with
      | [] =>
          if isAbsolute then [slash]
          else if trailingSeparator then [dot; slash] else [dot]
      | (_ :: _) as body =>
          let body' := if trailingSeparator then body ++ [slash] else body in
          if isAbsolute then slash :: body' else body'
      end
  end.

(** [path.join(...args)]: the non-empty arguments, joined by [/], then
    normalised; [.] when there is nothing to join. *)
Definition join (args : list text) : text :=
  match filter (fun a => negb (Nat.eqb (List.length a) 0)) args with
  | [] => [dot]
  | (_ :: _) as parts => normalize (join_segments parts)
  end.

(** Segments of a path that name something: neither empty nor [.]. *)
Definition components (p : text) : list text :=
  filter (fun seg => negb (Nat.eqb (List.length seg) 0) && negb (is_dot seg))
         (split p).

Fixpoint segments_prefix (a b : list text) : bool :=
  match a, b with
  | [], _ => true
  | _ :: _, [] => false
  | x :: a', y :: b' => text_eqb x y && segments_prefix a' b'
  end.

(** [p] is lexically inside [base]: the components of the normalised
    [base] are the first components of the normalised [p]. *)
Definition inside (base p : text) : bool :=
  segments_prefix (components (normalize base)) (components (normalize p)).

End Path.

(** ** The source file: [DEFAULT_OPTIONS] and [sanitize] *)

Module Sanitizer.
Import JsString RegExp JsValue.

(** How a call ends: with a value, with a raised failure, or still inside
    a [while] loop when the iteration budget is spent. *)
Inductive outcome (A : Type) : Type :=
| Ret (a : A)
| Throw (e : js_error)
| OutOfFuel.
Arguments Ret {A} a.
Arguments Throw {A} e.
Arguments OutOfFuel {A}.

Definition bind {A B : Type} (c : outcome A) (k : A -> outcome B) : outcome B :=
  match c with
  | Ret a => k a
  | Throw e => Throw e
  | OutOfFuel => OutOfFuel
  end.

Notation "x <- c ;; k" := (bind c (fun x => k))
  (at level 61, c at next level, right associativity).

(** [[\/\\]] *)
Definition separators : list ascii := [slash; backslash].

(** The ten one-character alternatives of the [notAllowedRegEx] literal,
    in the order written: colon, dollar, exclamation mark, single quote,
    double quote (code 34), at sign, plus, backquote, bar, equals. *)
Definition not_allowed_chars : list ascii :=
  [":"; "$"; "!"; "'"; ascii_of_nat 34; "@"; "+"; "`"; "|"; "="]%char.

Fixpoint alternatives (cs : list ascii) : re :=
  match cs with
  | [] => Eps
  | [c] => Chr c
  | c :: cs' => Alt (Chr c) (alternatives cs')
  end.

(** The three fields of [DEFAULT_OPTIONS]. *)
Definition default_decode : list decode_rule := [
  mkRule (mkRegExp (literal (of_string "%2e")) true) [dot];
  mkRule (mkRegExp (literal (of_string "%2f")) true) [slash];
  mkRule (mkRegExp (literal (of_string "%5c")) true) [backslash]
].

Definition default_parentDirectoryRegEx : regexp :=
  mkRegExp (Seq (Class separators)
                (Seq (Chr dot) (Seq (Chr dot) (Class separators))))
           true.

Definition default_notAllowedRegEx : regexp :=
  mkRegExp (alternatives not_allowed_chars) true.

Definition DEFAULT_OPTIONS : options_object := {|
  decode := Some default_decode;
  parentDirectoryRegEx := Some default_parentDirectoryRegEx;
  notAllowedRegEx := Some default_notAllowedRegEx
|}.

(** [/^[\/\\]?/] *)
Definition first_separator : regexp :=
  mkRegExp (Seq Bol (Opt (Class separators))) false.

(** [/[\/\\]+/g] *)
Definition separator_run : regexp :=
  mkRegExp (Plus (Class separators)) true.

(** [while (cond(s)) { s = body(s) }], at most [fuel] iterations. *)
Fixpoint while_loop (fuel : nat) (cond : text -> bool) (body : text -> text)
         (s : text) : outcome text :=
  if cond s then
    match fuel with
    | O => OutOfFuel
    | S n => while_loop n cond body (body s)
    end
  else Ret s.

Definition ends_with_separator (s : text) : bool :=
  endsWith slash s || endsWith backslash s.

Definition starts_with_separator (s : text) : bool :=
  startsWith slash s || startsWith backslash s.

(** [options.decode.forEach(decode => { ... })] *)
Definition decode_pass (rules : list decode_rule) (s : text) : text :=
  fold_left (fun sanitizedPath d =>
               replace (regex d) (replacement d) sanitizedPath)
            rules s.

(** The text on which the two trimming loops start: decode, first
    separator, parent-directory pattern, separator runs,
    [path.normalize]. *)
Definition untrimmed (rules : list decode_rule) (parentDirectory : regexp)
           (pathToSanitize : text) : text :=
  let sanitizedPath := pathToSanitize in
  let sanitizedPath := decode_pass rules sanitizedPath in
  let sanitizedPath := replace first_separator [slash] sanitizedPath in
  let sanitizedPath := replace parentDirectory [slash] sanitizedPath in
  let sanitizedPath := replace separator_run [slash] sanitizedPath in
  Path.normalize sanitizedPath.

(** The two loops: separators at the end, then at the beginning. *)
Definition trimmed (fuel : nat) (sanitizedPath : text) : outcome text :=
  sanitizedPath <- while_loop fuel ends_with_separator slice_to_last sanitizedPath ;;
  while_loop fuel starts_with_separator slice_from_1 sanitizedPath.

(** Everything [sanitize] does to the text once options and path are
    settled. *)
Definition sanitize_text (fuel : nat) (rules : list decode_rule)
           (parentDirectory notAllowed : regexp) (pathToSanitize : text)
  : outcome text :=
  sanitizedPath <- trimmed fuel (untrimmed rules parentDirectory pathToSanitize) ;;
  let sanitizedPath := Path.join [[]; sanitizedPath] in
  let sanitizedPath := replace notAllowed [] sanitizedPath in
  Ret sanitizedPath.

(** [options.field = value]: the object takes the write when the field
    is there and the object is not frozen, or when the field is new and
    the object is extensible; otherwise the write is dropped. *)
Definition takes_write {A : Type} (level : integrity) (f : field A) : bool :=
  match f, level with
  | Absent, Extensible => true
  | Absent, _ => false
  | _, Frozen => false
  | _, _ => true
  end.

(** [if (!options.field) options.field = default]: what the field holds
    afterwards. *)
Definition default_field {A : Type} (level : integrity) (f : field A)
           (default : option A) : field A :=
  match f with
  | Holds _ => f
  | _ => if takes_write level f then field_of_option default else f
  end.

(** The three defaulting lines, in the object that [options] refers to. *)
Definition assign_defaults (options : js_object) : js_object := {|
  callable := callable options;
  decode_field :=
    default_field (integrity_level options) (decode_field options)
                  (decode DEFAULT_OPTIONS);
  parentDirectoryRegEx_field :=
    default_field (integrity_level options) (parentDirectoryRegEx_field options)
                  (parentDirectoryRegEx DEFAULT_OPTIONS);
  notAllowedRegEx_field :=
    default_field (integrity_level options) (notAllowedRegEx_field options)
                  (notAllowedRegEx DEFAULT_OPTIONS);
  integrity_level := integrity_level options;
  conversion_to_text := conversion_to_text options
|}.

(** The first argument of [replace] read from a field: the
    regular-expression object it holds; otherwise, [replace] being given
    something that is not a regular expression, the search for the first
    occurrence of its text ([undefined] for a field that is not there). *)
Definition pattern_argument (f : field regexp) : regexp :=
  match f with
  | Holds rx => rx
  | Falsy v => mkRegExp (literal (of_string (falsy_text v))) false
  | Absent => mkRegExp (literal (of_string "undefined")) false
  end.

(** [if (typeof pathToSanitize !== 'string') pathToSanitize = `${pathToSanitize}`]:
    a string as it is, anything else through the template literal. *)
Definition coerce (pathToSanitize : value) : js_error + string :=
  match pathToSanitize with
  | VString s => inr s
  | _ => template_literal pathToSanitize
  end.

(** What a call leaves behind: its outcome, and the caller's [options]
    argument as it is after the call. *)
Record call : Type := mkCall {
  result : outcome string;
  options_after : value
}.

(** [function sanitize (pathToSanitize, options = DEFAULT_OPTIONS)].
    An omitted argument is [VUndefined]. *)
Definition sanitize (fuel : nat) (pathToSanitize options : value) : call :=
  (* the parameter default and [if (!options) options = DEFAULT_OPTIONS]
     rebind the local name only *)
  let caller_passed_it := truthy options in
  let local := if caller_passed_it then options else VObject DEFAULT_OPTIONS in
  if negb (typeof_is_object local)
  then mkCall (Throw (Error "options must be an object")) options
  else
    match local with
    | VObj o =>
        let o := assign_defaults o in
        let after := if caller_passed_it then VObj o else options in
        mkCall
          (pathToSanitize <-
             match coerce pathToSanitize with
             | inr s => Ret s
             | inl e => Throw e
             end ;;
           (* [options.decode.forEach]: a [TypeError] unless the field
              holds the list *)
           match decode_field o with
           | Holds rules =>
               sanitizedPath <-
                 sanitize_text fuel rules
                   (pattern_argument (parentDirectoryRegEx_field o))
                   (pattern_argument (notAllowedRegEx_field o))
                   (of_string pathToSanitize) ;;
               Ret (to_string sanitizedPath)
           | _ => Throw TypeError
           end)
          after
    | _ => mkCall (Throw TypeError) options
    end.

End Sanitizer.

(** * Vocabulary of the statements *)

Module Vocabulary.
Import JsString RegExp JsValue Sanitizer.

(** The options check of the second line of [sanitize]: a truthy value that
    is not an object. *)
Definition rejects (options : value) : bool :=
  truthy options && negb (typeof_is_object options).

(** [r] matches at no position of [s], the end included. *)
Fixpoint never_matches (r : re) (s : text) : Prop :=
  (forall bol, match_here r bol s = None) /\
  match s with
  | [] => True
  | _ :: s' => never_matches r s'
  end.

(** A text made of [/] and backslash only. *)
Definition only_separators (s : text) : bool :=
  forallb (fun c => in_class c separators) s.

Definition not_backslash (c : ascii) : Prop := c <> backslash.

Definition no_separator (c : ascii) : Prop := in_class c separators = false.

(** A path segment that is not empty, not [.], not [..], and holds no
    separator. *)
Definition clean_segment (seg : text) : Prop :=
  seg <> [] /\ Path.is_dot seg = false /\ Path.is_dotdot seg = false /\
  Forall no_separator seg.

(** The input of the repository's vulnerability tests: [..=%5c] three times
    before [etc/passwd]. *)
Definition traversal_payload : string := "..=%5c..=%5c..=%5cetc/passwd"%string.

(** [run p] is the result of [sanitize(p)] with the options omitted and a
    budget of sixty-four iterations. *)
Definition run (pathToSanitize : value) : outcome string :=
  result (sanitize 64 pathToSanitize VUndefined).

End Vocabulary.

Import Vocabulary.

(** * The test helper and the vocabulary of the further properties *)

Module Further.
Import JsString RegExp JsValue Sanitizer.

(** [function linuxSlash(str) { return str.replace(/\\/g, '/') }], the
    helper of the test file. *)
Definition linuxSlash (str : text) : text :=
  replace (mkRegExp (Chr backslash) true) [slash] str.

(** A character that [notAllowedRegEx] of the default options does not
    match. *)
Definition allowed_char (c : ascii) : bool :=
  negb (in_class c not_allowed_chars).

Definition allowed_text (s : text) : bool := forallb allowed_char s.

(** An allowed character other than the percent sign. *)
Definition plain_char (c : ascii) : bool :=
  allowed_char c && negb (Ascii.eqb c "%"%char).

Definition plain_text (s : text) : bool := forallb plain_char s.

(** [clean_segment], decided. *)
Definition clean_segment_b (seg : text) : bool :=
  negb (Nat.eqb (List.length seg) 0) && negb (Path.is_dot seg) &&
  negb (Path.is_dotdot seg) &&
  forallb (fun c => negb (in_class c separators)) seg.

(** A relative path in its final form: plain characters only, and between
    its [/] characters segments that are neither empty, [.] nor [..] and
    hold no backslash. *)
Definition safe_relative (p : text) : bool :=
  plain_text p && forallb clean_segment_b (Path.split p).



(** The number 500, and the number 0. *)
Definition five_hundred : value := VNumber 500 eq_refl.
Definition zero : value := VNumber 0 eq_refl.

(** The rules and patterns a call works with when its options argument is
    the object [o]: the fields of [o] that are present, the defaults for
    the others. *)
Definition effective_decode (o : options_object) : list decode_rule :=
  match decode o with Some d => d | None => default_decode end.

Definition effective_parentDirectory (o : options_object) : regexp :=
  match parentDirectoryRegEx o with
  | Some rx => rx
  | None => default_parentDirectoryRegEx
  end.

Definition effective_notAllowed (o : options_object) : regexp :=
  match notAllowedRegEx o with
  | Some rx => rx
  | None => default_notAllowedRegEx
  end.

(** The segments written one after the other, each behind a [/]. *)
Definition slashed (segs : list text) : text :=
  flat_map (fun seg => slash :: seg) segs.

(** Two characters that are the same or are both separators, and two
    texts that are so character by character. *)
Definition same_or_separators (a b : ascii) : Prop :=
  a = b \/ (in_class a separators = true /\ in_class b separators = true).

Definition separator_equivalent (s s' : text) : Prop :=
  Forall2 same_or_separators s s'.

(** A pattern that cannot tell [/] from backslash: its literal characters
    are not separators and its classes hold both separators or none. *)
Fixpoint separator_blind (r : re) : bool :=
  match r with
  | Eps | Bol => true
  | Chr c => negb (in_class c separators)
  | Class cs => Bool.eqb (in_class slash cs) (in_class backslash cs)
  | Seq a b | Alt a b => separator_blind a && separator_blind b
  | Opt a | Star a => separator_blind a
  end.

(** Two answers of a matcher that are both failures or are equivalent
    texts. *)
Definition equivalent_answers (o o' : option text) : Prop :=
  match o, o' with
  | Some t, Some t' => separator_equivalent t t'
  | None, None => True
  | _, _ => False
  end.

(** A path segment as [path.normalize] keeps them: not empty, not [.],
    without [/]. *)
Definition kept_segment (seg : text) : Prop :=
  seg <> [] /\ Path.is_dot seg = false /\
  Forall (fun c => Ascii.eqb c slash = false) seg.

(** The stack of [Path.resolve] (last segment first) in the only form the
    walk produces: ordinary segments on top of [..] segments, the latter
    only when going above the root is allowed. *)
Fixpoint resolved_stack (allowAboveRoot : bool) (kept : list text) : Prop :=
  match kept with
  | [] => True
  | seg :: below =>
      kept_segment seg /\
      (if Path.is_dotdot seg
       then allowAboveRoot = true /\
            Forall (fun s => Path.is_dotdot s = true) below
       else resolved_stack allowAboveRoot below)
  end.

End Further.

Import Further.

(** * Auxiliary facts *)

Section Loops.
Import JsString Sanitizer.

Variable cond : text -> bool.
Variable body : text -> text.
Hypothesis body_shrinks :
  forall s, cond s = true -> List.length (body s) < List.length s.

(** A loop whose body shortens the text finishes within as many
    iterations as the text has characters. *)
Lemma while_loop_enough : forall fuel s,
  List.length s <= fuel ->
  exists r, while_loop fuel cond body s = Ret r /\
            List.length r <= List.length s /\ cond r = false.
Proof.
  induction fuel as [|fuel IH]; intros s Hlen; simpl;
    destruct (cond s) eqn:Hc.
  - apply body_shrinks in Hc. lia.
  - exists s. auto.
  - pose proof (body_shrinks s Hc) as Hlt.
    destruct (IH (body s)) as (r & Hr & Hrl & Hrc); [lia|].
    exists r. repeat split; auto. lia.
  - exists s. auto.
Qed.

End Loops.

Section LoopBudget.
Import JsString Sanitizer.

(** Once a loop has finished, a larger budget changes nothing. *)
Lemma while_loop_stable (cond : text -> bool) (body : text -> text) :
  forall fuel s r, while_loop fuel cond body s = Ret r ->
  forall fuel', fuel <= fuel' -> while_loop fuel' cond body s = Ret r.
Proof.
  induction fuel as [|fuel IH]; intros s r H fuel' Hle;
    simpl in H; destruct (cond s) eqn:Hc; try discriminate.
  - destruct fuel'; simpl; rewrite Hc; assumption.
  - destruct fuel' as [|fuel']; [lia|]. simpl. rewrite Hc.
    apply IH with (fuel' := fuel') in H; [assumption | lia].
  - destruct fuel'; simpl; rewrite Hc; assumption.
Qed.

Lemma slice_to_last_shrinks : forall s,
  ends_with_separator s = true ->
  List.length (slice_to_last s) < List.length s.
Proof.
  intros s H. destruct s as [|c s].
  - discriminate.
  - unfold slice_to_last.
    assert (Hne : c :: s <> []) by discriminate.
    rewrite (app_removelast_last c Hne) at 2.
    rewrite length_app. simpl. lia.
Qed.

Lemma slice_from_1_shrinks : forall s,
  starts_with_separator s = true ->
  List.length (slice_from_1 s) < List.length s.
Proof.
  intros [|c s] H; [discriminate | simpl; lia].
Qed.

(** The two trimming loops finish within the length of the text they
    start on. *)
Lemma trimmed_enough : forall fuel s,
  List.length s <= fuel ->
  exists r, trimmed fuel s = Ret r /\ List.length r <= List.length s.
Proof.
  intros fuel s Hlen. unfold trimmed.
  destruct (while_loop_enough _ _ slice_to_last_shrinks fuel s Hlen)
    as (r1 & Hr1 & Hl1 & _).
  rewrite Hr1. simpl.
  destruct (while_loop_enough _ _ slice_from_1_shrinks fuel r1)
    as (r2 & Hr2 & Hl2 & _); [lia|].
  exists r2. split; [assumption | lia].
Qed.

Lemma trimmed_stable : forall fuel s r,
  trimmed fuel s = Ret r ->
  forall fuel', fuel <= fuel' -> trimmed fuel' s = Ret r.
Proof.
  unfold trimmed. intros fuel s r H fuel' Hle.
  destruct (while_loop fuel ends_with_separator slice_to_last s) as [r1| |] eqn:H1;
    simpl in H; try discriminate.
  rewrite (while_loop_stable _ _ _ _ _ H1 fuel' Hle). simpl.
  apply (while_loop_stable _ _ _ _ _ H fuel' Hle).
Qed.

Lemma sanitize_text_enough : forall fuel rules parentDirectory notAllowed s,
  List.length (untrimmed rules parentDirectory s) <= fuel ->
  exists r, sanitize_text fuel rules parentDirectory notAllowed s = Ret r.
Proof.
  intros fuel rules pd na s Hlen. unfold sanitize_text.
  destruct (trimmed_enough fuel _ Hlen) as (r & Hr & _).
  rewrite Hr. simpl. eauto.
Qed.

Lemma sanitize_text_stable : forall fuel rules parentDirectory notAllowed s r,
  sanitize_text fuel rules parentDirectory notAllowed s = Ret r ->
  forall fuel', fuel <= fuel' ->
    sanitize_text fuel' rules parentDirectory notAllowed s = Ret r.
Proof.
  unfold sanitize_text. intros fuel rules pd na s r H fuel' Hle.
  destruct (trimmed fuel (untrimmed rules pd s)) as [t| |] eqn:Ht;
    simpl in H; try discriminate.
  rewrite (trimmed_stable _ _ _ Ht fuel' Hle). assumption.
Qed.

End LoopBudget.

(** ** Replacement on texts a pattern cannot match *)

Section NoMatch.
Import JsString RegExp.

Lemma replace_global_never_matches : forall r by_ s bol,
  never_matches r s -> replace_global r by_ bol 0 s = s.
Proof.
  intros r by_ s. induction s as [|c s IH]; intros bol [Hhere Hrest]; simpl.
  - rewrite Hhere. reflexivity.
  - rewrite Hhere. f_equal. apply IH. exact Hrest.
Qed.

(** Once inside a match that covers the rest of the text, the scan only
    has the end of the text left to try. *)
Lemma replace_global_skip_all : forall r by_ s,
  replace_global r by_ false (List.length s) s = replace_global r by_ false 0 [].
Proof.
  intros r by_ s. induction s as [|c s IH]; simpl; [reflexivity | exact IH].
Qed.

End NoMatch.

(** ** Texts made of separators only *)

Section OnlySeparators.
Import JsString RegExp Sanitizer.

Lemma separator_cases : forall c,
  in_class c separators = true -> c = slash \/ c = backslash.
Proof.
  intros c H. unfold in_class, separators in H. simpl in H.
  destruct (Ascii.eqb c slash) eqn:E1.
  - left. apply Ascii.eqb_eq. exact E1.
  - destruct (Ascii.eqb c backslash) eqn:E2; [|discriminate].
    right. apply Ascii.eqb_eq. exact E2.
Qed.

(** A pattern that begins with a literal character other than a
    separator matches nowhere in a text of separators. *)
Lemma literal_start_never_matches : forall c0 r s,
  in_class c0 separators = false ->
  only_separators s = true ->
  never_matches (Seq (Chr c0) r) s.
Proof.
  intros c0 r s Hc0. induction s as [|x s IH]; intro Hs; simpl.
  - split; [reflexivity | exact I].
  - cbn [only_separators forallb] in Hs. apply andb_prop in Hs. destruct Hs as [Hx Hs].
    split; [|exact (IH Hs)].
    intro bol. unfold match_here. simpl.
    destruct (Ascii.eqb x c0) eqn:E; [|reflexivity].
    apply Ascii.eqb_eq in E. rewrite E in Hx. rewrite Hx in Hc0. discriminate.
Qed.

(** The default parent-directory pattern needs a dot after a separator. *)
Lemma parent_directory_never_matches : forall s,
  only_separators s = true ->
  never_matches (pattern default_parentDirectoryRegEx) s.
Proof.
  induction s as [|x s IH]; intro Hs; simpl.
  - split; [reflexivity | exact I].
  - cbn [only_separators forallb] in Hs. apply andb_prop in Hs. destruct Hs as [Hx Hs].
    split; [|exact (IH Hs)].
    intro bol. unfold match_here, default_parentDirectoryRegEx.
    cbn [pattern rmatch]. rewrite Hx.
    destruct s as [|y s]; [reflexivity|].
    cbn [only_separators forallb] in Hs. apply andb_prop in Hs. destruct Hs as [Hy _].
    destruct (separator_cases y Hy) as [-> | ->]; reflexivity.
Qed.

Lemma decode_pass_only_separators : forall s,
  only_separators s = true -> decode_pass default_decode s = s.
Proof.
  intros s Hs. unfold decode_pass, default_decode, replace. simpl.
  assert (Hid : forall c0 r by_, in_class c0 separators = false ->
            replace_global (Seq (Chr c0) r) by_ true 0 s = s).
  { intros c0 r by_ Hc0. apply replace_global_never_matches.
    apply literal_start_never_matches; assumption. }
  rewrite !Hid; reflexivity.
Qed.

Lemma first_separator_only_separators : forall s,
  only_separators s = true ->
  exists s', replace first_separator [slash] s = slash :: s' /\
             only_separators s' = true.
Proof.
  intros [|x s] Hs.
  - exists []. split; reflexivity.
  - cbn [only_separators forallb] in Hs. apply andb_prop in Hs. destruct Hs as [Hx Hs].
    exists s. split; [|exact Hs].
    unfold replace, first_separator.
    cbn [global pattern replace_first]. unfold match_here.
    cbn [rmatch]. rewrite Hx. reflexivity.
Qed.

(** [[\/\\]*] swallows a text of separators whole. *)
Lemma star_takes_all_separators : forall n s bol,
  only_separators s = true -> List.length s <= n ->
  star_iter (rmatch (Class separators)) (fun _ rest => Some rest) n bol s
    = Some [].
Proof.
  induction n as [|n IH]; intros s bol Hs Hlen.
  - destruct s; [reflexivity | simpl in Hlen; lia].
  - destruct s as [|x s]; [reflexivity|].
    cbn [only_separators forallb] in Hs. apply andb_prop in Hs. destruct Hs as [Hx Hs].
    simpl in Hlen.
    cbn [star_iter rmatch]. rewrite Hx.
    assert (Hlt : (List.length s <? List.length (x :: s)) = true)
      by (apply Nat.ltb_lt; simpl; lia).
    rewrite Hlt. rewrite IH; [reflexivity | exact Hs | lia].
Qed.

Lemma separator_run_only_separators : forall x s,
  only_separators (x :: s) = true ->
  replace separator_run [slash] (x :: s) = [slash].
Proof.
  intros x s Hs. cbn [only_separators forallb] in Hs. apply andb_prop in Hs. destruct Hs as [Hx Hs].
  unfold replace, separator_run, Plus.
  cbn [global pattern replace_global].
  assert (Hm : match_here (Seq (Class separators) (Star (Class separators)))
                 true (x :: s) = Some []).
  { unfold match_here. cbn [rmatch]. rewrite Hx.
    apply star_takes_all_separators; [exact Hs | lia]. }
  rewrite Hm. cbn [List.length Nat.sub].
  rewrite replace_global_skip_all. reflexivity.
Qed.

(** A text of separators, the empty one included, reaches the trimming
    loops as the single character [/]. *)
Lemma untrimmed_only_separators : forall s,
  only_separators s = true ->
  untrimmed default_decode default_parentDirectoryRegEx s = [slash].
Proof.
  intros s Hs. unfold untrimmed.
  rewrite (decode_pass_only_separators s Hs).
  destruct (first_separator_only_separators s Hs) as (s' & -> & Hs').
  assert (Hall : only_separators (slash :: s') = true)
    by (simpl; exact Hs').
  unfold replace at 2. cbn [global default_parentDirectoryRegEx].
  rewrite (replace_global_never_matches _ _ _ _
             (parent_directory_never_matches _ Hall)).
  rewrite (separator_run_only_separators _ _ Hall). reflexivity.
Qed.

End OnlySeparators.

(** ** Characters that the passes can put into the text *)

Section Characters.
Import JsString RegExp Sanitizer.

Variable Q : ascii -> Prop.

(** Replacing matches by the empty string only deletes characters. *)
Lemma replace_global_deletes : forall r s bol skip,
  Forall Q s -> Forall Q (replace_global r [] bol skip s).
Proof.
  intros r s. induction s as [|c s IH]; intros bol skip Hs; cbn [replace_global].
  - destruct skip; [destruct (match_here r bol [])|]; constructor.
  - inversion Hs as [|? ? Hc Hs']; subst.
    destruct skip as [|n]; [|apply IH; assumption].
    destruct (match_here r bol (c :: s)) as [rest|].
    + destruct (List.length (c :: s) - List.length rest) as [|n]; cbn [app].
      * constructor; [assumption | apply IH; assumption].
      * apply IH; assumption.
    + constructor; [assumption | apply IH; assumption].
Qed.

Hypothesis Q_slash : Q slash.
Hypothesis Q_dot : Q dot.

Lemma split_chars : forall s, Forall Q s -> Forall (Forall Q) (Path.split s).
Proof.
  induction s as [|c s IH]; intro Hs; simpl.
  - repeat constructor.
  - inversion Hs as [|? ? Hc Hs']; subst. specialize (IH Hs').
    destruct (Ascii.eqb c slash).
    + constructor; [constructor | assumption].
    + destruct (Path.split s) as [|seg segs].
      * repeat constructor; assumption.
      * inversion IH; subst. constructor; [constructor|]; assumption.
Qed.

Lemma resolve_chars : forall allowAboveRoot segs kept,
  Forall (Forall Q) segs -> Forall (Forall Q) kept ->
  Forall (Forall Q) (Path.resolve allowAboveRoot segs kept).
Proof.
  intros a segs. induction segs as [|seg rest IH]; intros kept Hsegs Hkept; simpl.
  - apply Forall_rev. assumption.
  - inversion Hsegs as [|? ? Hseg Hrest]; subst.
    destruct seg as [|c seg]; [apply IH; assumption|].
    destruct (Path.is_dot (c :: seg)); [apply IH; assumption|].
    destruct (Path.is_dotdot (c :: seg)).
    + destruct kept as [|top below].
      * apply IH; [assumption|].
        destruct a; [constructor; [assumption | constructor] | constructor].
      * inversion Hkept; subst.
        destruct (Path.is_dotdot top); apply IH; try assumption.
        destruct a; [constructor|]; assumption.
    + apply IH; [assumption|]. constructor; assumption.
Qed.

Lemma join_segments_chars : forall segs,
  Forall (Forall Q) segs -> Forall Q (Path.join_segments segs).
Proof.
  induction segs as [|seg segs IH]; intro H; simpl; [constructor|].
  inversion H as [|? ? Hseg Hsegs]; subst.
  destruct segs as [|seg' segs']; [assumption|].
  apply Forall_app. split; [assumption|].
  constructor; [exact Q_slash | apply IH; assumption].
Qed.

(** [path.normalize] writes only characters of its argument, [/] and [.]. *)
Lemma normalize_chars : forall p, Forall Q p -> Forall Q (Path.normalize p).
Proof.
  intros p Hp. unfold Path.normalize.
  destruct p as [|c p]; [repeat constructor; assumption|].
  assert (Hbody : Forall Q (Path.normalizeString (c :: p)
                              (negb (startsWith slash (c :: p))))).
  { unfold Path.normalizeString. apply join_segments_chars.
    apply resolve_chars; [apply split_chars; assumption | constructor]. }
  destruct (Path.normalizeString (c :: p) (negb (startsWith slash (c :: p))))
    as [|b body].
  - destruct (startsWith slash (c :: p)); [repeat constructor; assumption|].
    destruct (endsWith slash (c :: p)); repeat constructor; assumption.
  - assert (Htrail : Forall Q (if endsWith slash (c :: p)
                               then (b :: body) ++ [slash] else b :: body)).
    { destruct (endsWith slash (c :: p)); [|assumption].
      apply Forall_app. split; [assumption | repeat constructor; assumption]. }
    destruct (startsWith slash (c :: p)); [constructor|]; assumption.
Qed.

Lemma join_chars : forall t, Forall Q t -> Forall Q (Path.join [[]; t]).
Proof.
  intros t Ht. unfold Path.join.
  destruct t as [|c t]; cbn [filter List.length Nat.eqb negb];
    [repeat constructor; assumption|].
  cbn [Path.join_segments]. apply normalize_chars. assumption.
Qed.

(** A loop keeps what its body keeps. *)
Lemma while_loop_keeps (I : text -> Prop) (cond : text -> bool) (body : text -> text) :
  (forall s, I s -> I (body s)) ->
  forall fuel s r, I s -> while_loop fuel cond body s = Ret r -> I r.
Proof.
  intros Hbody. induction fuel as [|fuel IH]; intros s r Hs H;
    simpl in H; destruct (cond s); try discriminate.
  - inversion H; subst; assumption.
  - apply (IH (body s)); auto.
  - inversion H; subst; assumption.
Qed.

Lemma slice_to_last_chars : forall s, Forall Q s -> Forall Q (slice_to_last s).
Proof.
  intros s Hs. unfold slice_to_last.
  destruct s as [|c s]; [constructor|].
  assert (Hne : c :: s <> []) by discriminate.
  rewrite (app_removelast_last c Hne) in Hs.
  apply Forall_app in Hs. tauto.
Qed.

Lemma slice_from_1_chars : forall s, Forall Q s -> Forall Q (slice_from_1 s).
Proof.
  intros [|c s] Hs; [constructor | inversion Hs; assumption].
Qed.

Lemma trimmed_chars : forall fuel s r,
  Forall Q s -> trimmed fuel s = Ret r -> Forall Q r.
Proof.
  unfold trimmed. intros fuel s r Hs H.
  destruct (while_loop fuel ends_with_separator slice_to_last s) as [r1| |] eqn:H1;
    simpl in H; try discriminate.
  eapply (while_loop_keeps (Forall Q)); [exact slice_from_1_chars | | exact H].
  eapply (while_loop_keeps (Forall Q)); [exact slice_to_last_chars | exact Hs | exact H1].
Qed.

End Characters.

(** ** Backslashes *)

Section Backslashes.
Import JsString RegExp Sanitizer.

(** [[\/\\]*] always matches, and never hands back more than it was given. *)
Lemma star_class_matches : forall cs n bol s,
  exists rest,
    star_iter (rmatch (Class cs)) (fun _ r => Some r) n bol s = Some rest /\
    List.length rest <= List.length s.
Proof.
  intros cs.
  remember (rmatch (Class cs)) as m eqn:Em.
  assert (Hnil : forall bol k, m bol [] k = None)
    by (intros; subst m; reflexivity).
  assert (Hcons : forall bol x s k,
            m bol (x :: s) k = if in_class x cs then k false s else None)
    by (intros; subst m; reflexivity).
  clear Em.
  induction n as [|n IH]; intros bol s; cbn [star_iter].
  - exists s. auto.
  - destruct s as [|x s].
    + rewrite Hnil. exists []. auto.
    + rewrite Hcons. destruct (in_class x cs); [|exists (x :: s); auto].
      assert (Hlt : (List.length s <? List.length (x :: s)) = true)
        by (apply Nat.ltb_lt; simpl; lia).
      rewrite Hlt.
      destruct (IH false s) as (rest & Hr & Hl).
      rewrite Hr. exists rest. split; [reflexivity | simpl; lia].
Qed.

Lemma separator_run_match : forall bol c s,
  match_here (pattern separator_run) bol (c :: s) =
  if in_class c separators
  then star_iter (rmatch (Class separators)) (fun _ r => Some r)
                 (List.length s) false s
  else None.
Proof.
  reflexivity.
Qed.

(** After [replace(/[\/\\]+/g, '/')] no backslash is left. *)
Lemma separator_run_removes_backslashes : forall s bol skip,
  Forall not_backslash
         (replace_global (pattern separator_run) [slash] bol skip s).
Proof.
  induction s as [|c s IH]; intros bol skip.
  - destruct skip; simpl; constructor.
  - cbn [replace_global]. destruct skip as [|n]; [|apply IH].
    rewrite separator_run_match.
    destruct (in_class c separators) eqn:Hc.
    + destruct (star_class_matches separators (List.length s) false s)
        as (rest & Hr & Hl).
      rewrite Hr.
      replace (List.length (c :: s) - List.length rest)
        with (S (List.length s - List.length rest))
        by (cbn [List.length]; lia).
      constructor; [discriminate | apply IH].
    + constructor; [|apply IH].
      intro E. subst c. discriminate Hc.
Qed.

Lemma untrimmed_has_no_backslash : forall rules parentDirectory s,
  Forall not_backslash (untrimmed rules parentDirectory s).
Proof.
  intros rules pd s. unfold untrimmed.
  apply normalize_chars; try discriminate.
  unfold replace at 1. cbn [global separator_run].
  apply separator_run_removes_backslashes.
Qed.

(** Whatever the decode rules and the parent-directory pattern, when the
    pattern for disallowed characters is global the text returned by the
    pipeline holds no backslash. *)
Lemma sanitize_text_has_no_backslash :
  forall fuel rules parentDirectory notAllowed s r,
    global notAllowed = true ->
    sanitize_text fuel rules parentDirectory notAllowed s = Ret r ->
    Forall not_backslash r.
Proof.
  intros fuel rules pd na s r Hg H. unfold sanitize_text in H.
  destruct (trimmed fuel (untrimmed rules pd s)) as [t| |] eqn:Ht;
    simpl in H; try discriminate.
  inversion H; subst. unfold replace. rewrite Hg.
  apply replace_global_deletes.
  apply join_chars; try discriminate.
  apply (trimmed_chars not_backslash fuel _ _
           (untrimmed_has_no_backslash rules pd s) Ht).
Qed.

End Backslashes.

(** ** The text before the disallowed characters are removed

    For every input, every list of decode rules and every parent-directory
    pattern, the text handed to the last replacement is either [.] or a
    sequence of segments joined by [/] in which no segment is empty, [.] or
    [..] and no segment holds a separator. *)

Section BeforeFiltering.
Import JsString RegExp Sanitizer.

Lemma no_separator_not_slash : forall c,
  no_separator c -> Ascii.eqb c slash = false.
Proof.
  intros c H. unfold no_separator, in_class, separators in H.
  cbn [existsb] in H. apply orb_false_elim in H. tauto.
Qed.

Lemma no_separator_intro : forall c,
  Ascii.eqb c slash = false -> c <> backslash -> no_separator c.
Proof.
  intros c Hs Hb. unfold no_separator, in_class, separators.
  cbn [existsb]. rewrite Hs.
  destruct (Ascii.eqb c backslash) eqn:E; [|reflexivity].
  apply Ascii.eqb_eq in E. contradiction.
Qed.

(** *** Loops, one iteration at a time *)

Lemma while_loop_done (cond : text -> bool) (body : text -> text) :
  forall fuel s, cond s = false -> while_loop fuel cond body s = Ret s.
Proof.
  intros fuel s H. destruct fuel; simpl; rewrite H; reflexivity.
Qed.

Lemma while_loop_step (cond : text -> bool) (body : text -> text) :
  forall fuel s r, cond s = true ->
  while_loop fuel cond body s = Ret r ->
  exists n, fuel = S n /\ while_loop n cond body (body s) = Ret r.
Proof.
  intros fuel s r Hc H. destruct fuel as [|n]; simpl in H; rewrite Hc in H.
  - discriminate.
  - exists n. auto.
Qed.

Lemma ends_with_separator_last : forall l c,
  ends_with_separator (l ++ [c]) = in_class c separators.
Proof.
  intros l c. unfold ends_with_separator, endsWith, in_class, separators.
  rewrite rev_unit. cbn [existsb]. rewrite orb_false_r. reflexivity.
Qed.

Lemma starts_with_separator_first : forall c l,
  starts_with_separator (c :: l) = in_class c separators.
Proof.
  intros c l. unfold starts_with_separator, startsWith, in_class, separators.
  cbn [existsb]. rewrite orb_false_r. reflexivity.
Qed.

(** *** The beginning of the text up to [path.normalize] *)

Lemma first_separator_head : forall s,
  exists s', replace first_separator [slash] s = slash :: s'.
Proof.
  intros s. unfold replace, first_separator. cbn [global pattern].
  destruct s as [|c s]; [exists []; reflexivity|].
  cbn [replace_first]. unfold match_here. cbn [rmatch].
  destruct (in_class c separators); eexists; reflexivity.
Qed.

(** Replacing matches by [/] in a text that begins with [/] gives a text
    that begins with [/]. *)
Lemma replace_by_slash_head : forall rx s,
  exists s', replace rx [slash] (slash :: s) = slash :: s'.
Proof.
  intros rx s. unfold replace. destruct (global rx).
  - cbn [replace_global].
    destruct (match_here (pattern rx) true (slash :: s)) as [rest|].
    + destruct (List.length (slash :: s) - List.length rest);
        eexists; reflexivity.
    + eexists; reflexivity.
  - cbn [replace_first].
    destruct (match_here (pattern rx) true (slash :: s)) as [rest|];
      eexists; reflexivity.
Qed.

(** *** Segments *)

Lemma split_no_separator : forall s,
  Forall not_backslash s -> Forall (Forall no_separator) (Path.split s).
Proof.
  induction s as [|c s IH]; intro Hs; cbn [Path.split].
  - repeat constructor.
  - inversion Hs as [|? ? Hc Hs']; subst. specialize (IH Hs').
    destruct (Ascii.eqb c slash) eqn:E.
    + constructor; [constructor | assumption].
    + pose proof (no_separator_intro c E Hc) as Hn.
      destruct (Path.split s) as [|seg segs].
      * repeat constructor; assumption.
      * inversion IH; subst. constructor; [constructor|]; assumption.
Qed.

Lemma resolve_absolute_clean : forall segs kept,
  Forall (Forall no_separator) segs -> Forall clean_segment kept ->
  Forall clean_segment (Path.resolve false segs kept).
Proof.
  induction segs as [|seg rest IH]; intros kept Hsegs Hkept; cbn [Path.resolve].
  - apply Forall_rev. assumption.
  - inversion Hsegs as [|? ? Hseg Hrest]; subst.
    destruct seg as [|c seg]; [apply IH; assumption|].
    destruct (Path.is_dot (c :: seg)) eqn:Ed; [apply IH; assumption|].
    destruct (Path.is_dotdot (c :: seg)) eqn:Edd.
    + destruct kept as [|top below]; [apply IH; assumption|].
      inversion Hkept; subst.
      destruct (Path.is_dotdot top); apply IH; assumption.
    + apply IH; [assumption|]. constructor; [|assumption].
      repeat split; try assumption. discriminate.
Qed.

Lemma resolve_clean : forall allowAboveRoot segs kept,
  Forall clean_segment segs ->
  Path.resolve allowAboveRoot segs kept = rev kept ++ segs.
Proof.
  intros a segs. induction segs as [|seg rest IH]; intros kept H;
    cbn [Path.resolve].
  - rewrite app_nil_r. reflexivity.
  - inversion H as [|? ? (Hne & Hd & Hdd & _) Hrest]; subst.
    destruct seg as [|c seg]; [contradiction|].
    rewrite Hd, Hdd, (IH _ Hrest). cbn [rev].
    rewrite <- app_assoc. reflexivity.
Qed.

Lemma split_segment : forall seg,
  Forall no_separator seg -> Path.split seg = [seg].
Proof.
  induction seg as [|c seg IH]; intro H; cbn [Path.split]; [reflexivity|].
  inversion H as [|? ? Hc Hseg]; subst.
  rewrite (no_separator_not_slash c Hc), (IH Hseg). reflexivity.
Qed.

Lemma split_segment_slash : forall seg r,
  Forall no_separator seg ->
  Path.split (seg ++ slash :: r) = seg :: Path.split r.
Proof.
  induction seg as [|c seg IH]; intros r H; cbn [Path.split app].
  - reflexivity.
  - inversion H as [|? ? Hc Hseg]; subst.
    rewrite (no_separator_not_slash c Hc), (IH r Hseg). reflexivity.
Qed.

Lemma join_segments_cons : forall seg seg' segs,
  Path.join_segments (seg :: seg' :: segs) =
  seg ++ slash :: Path.join_segments (seg' :: segs).
Proof.
  reflexivity.
Qed.

Lemma split_join_segments : forall segs,
  segs <> [] -> Forall clean_segment segs ->
  Path.split (Path.join_segments segs) = segs.
Proof.
  induction segs as [|seg segs IH]; intros Hne H; [contradiction|].
  inversion H as [|? ? (_ & _ & _ & Hseg) Hsegs]; subst.
  destruct segs as [|seg' segs'].
  - cbn [Path.join_segments]. apply split_segment. assumption.
  - rewrite join_segments_cons.
    rewrite (split_segment_slash _ _ Hseg), IH; [reflexivity | discriminate | assumption].
Qed.

Lemma join_segments_first : forall segs,
  segs <> [] -> Forall clean_segment segs ->
  exists c l, Path.join_segments segs = c :: l /\ no_separator c.
Proof.
  intros [|seg segs] Hne H; [contradiction|].
  inversion H as [|? ? (Hn & _ & _ & Hseg) _]; subst.
  destruct seg as [|c seg]; [contradiction|].
  inversion Hseg; subst.
  destruct segs; cbn [Path.join_segments app]; eauto.
Qed.

Lemma join_segments_last : forall segs,
  segs <> [] -> Forall clean_segment segs ->
  exists l c, Path.join_segments segs = l ++ [c] /\ no_separator c.
Proof.
  induction segs as [|seg segs IH]; intros Hne H; [contradiction|].
  inversion H as [|? ? (Hn & _ & _ & Hseg) Hsegs]; subst.
  destruct segs as [|seg' segs'].
  - cbn [Path.join_segments].
    destruct (exists_last Hn) as (l & c & ->).
    apply Forall_app in Hseg. destruct Hseg as [_ Hc]. inversion Hc; subst.
    eauto.
  - destruct IH as (l & c & Hl & Hc); [discriminate | assumption |].
    rewrite join_segments_cons.
    rewrite Hl. exists (seg ++ slash :: l), c.
    rewrite <- app_assoc. auto.
Qed.

(** *** [path.normalize] on an absolute path without backslashes *)

Lemma normalize_absolute : forall s,
  Forall not_backslash (slash :: s) ->
  exists segs,
    Forall clean_segment segs /\
    Path.normalize (slash :: s) =
    match segs with
    | [] => [slash]
    | _ :: _ =>
        slash :: Path.join_segments segs ++
                 (if endsWith slash (slash :: s) then [slash] else [])
    end.
Proof.
  intros s Hs.
  exists (Path.resolve false (Path.split (slash :: s)) []).
  assert (Hclean : Forall clean_segment
                     (Path.resolve false (Path.split (slash :: s)) [])).
  { apply resolve_absolute_clean;
      [apply split_no_separator; assumption | constructor]. }
  split; [assumption|].
  unfold Path.normalize, Path.normalizeString.
  change (startsWith slash (slash :: s)) with true. cbn [negb].
  destruct (Path.resolve false (Path.split (slash :: s)) []) as [|seg segs];
    [reflexivity|].
  destruct (join_segments_first (seg :: segs)) as (c & l & -> & _);
    [discriminate | assumption |].
  destruct (endsWith slash (slash :: s)); [reflexivity|].
  rewrite app_nil_r. reflexivity.
Qed.

(** *** The trimming loops and [path.join] *)

Lemma trimmed_absolute : forall fuel segs trailing t,
  segs <> [] -> Forall clean_segment segs ->
  trimmed fuel (slash :: Path.join_segments segs ++
                (if trailing : bool then [slash] else [])) = Ret t ->
  t = Path.join_segments segs.
Proof.
  intros fuel segs trailing t Hne Hclean H.
  destruct (join_segments_last segs Hne Hclean) as (l & c & Hl & Hc).
  destruct (join_segments_first segs Hne Hclean) as (c0 & l0 & Hf & Hc0).
  unfold trimmed in H.
  assert (Hstop : ends_with_separator (slash :: Path.join_segments segs) = false).
  { rewrite Hl. change (slash :: l ++ [c]) with ((slash :: l) ++ [c]).
    rewrite ends_with_separator_last. exact Hc. }
  assert (H1 : while_loop fuel ends_with_separator slice_to_last
                 (slash :: Path.join_segments segs ++
                  (if trailing then [slash] else []))
               = Ret (slash :: Path.join_segments segs) \/
               while_loop fuel ends_with_separator slice_to_last
                 (slash :: Path.join_segments segs ++
                  (if trailing then [slash] else []))
               = OutOfFuel).
  { destruct trailing.
    - destruct fuel as [|n].
      + right. cbn [while_loop].
        change (slash :: Path.join_segments segs ++ [slash])
          with ((slash :: Path.join_segments segs) ++ [slash]).
        rewrite ends_with_separator_last. reflexivity.
      + left. cbn [while_loop].
        change (slash :: Path.join_segments segs ++ [slash])
          with ((slash :: Path.join_segments segs) ++ [slash]).
        rewrite ends_with_separator_last.
        change (in_class slash separators) with true. cbv iota.
        unfold slice_to_last. rewrite removelast_last.
        apply while_loop_done. exact Hstop.
    - left. rewrite app_nil_r. apply while_loop_done. exact Hstop. }
  destruct H1 as [H1|H1]; rewrite H1 in H; cbn [bind] in H; [|discriminate].
  apply while_loop_step in H; [|reflexivity].
  destruct H as (n & _ & H). unfold slice_from_1 in H. cbn [tl] in H.
  rewrite while_loop_done in H.
  - inversion H. reflexivity.
  - rewrite Hf, starts_with_separator_first. exact Hc0.
Qed.

Lemma normalize_nonempty : forall p,
  p <> [] ->
  Path.normalize p =
  match Path.normalizeString p (negb (startsWith slash p)) with
  | [] =>
      if startsWith slash p then [slash]
      else if endsWith slash p then [dot; slash] else [dot]
  | (_ :: _) as body =>
      let body' := if endsWith slash p then body ++ [slash] else body in
      if startsWith slash p then slash :: body' else body'
  end.
Proof.
  intros [|c p] H; [contradiction | reflexivity].
Qed.

Lemma join_clean_segments : forall segs,
  segs <> [] -> Forall clean_segment segs ->
  Path.join [[]; Path.join_segments segs] = Path.join_segments segs.
Proof.
  intros segs Hne Hclean.
  destruct (join_segments_last segs Hne Hclean) as (l & c & Hl & Hc).
  destruct (join_segments_first segs Hne Hclean) as (c0 & l0 & Hf & Hc0).
  assert (Hends : endsWith slash (Path.join_segments segs) = false).
  { rewrite Hl. unfold endsWith. rewrite rev_unit.
    apply no_separator_not_slash. exact Hc. }
  assert (Hstarts : startsWith slash (Path.join_segments segs) = false).
  { rewrite Hf. cbn [startsWith]. apply no_separator_not_slash. exact Hc0. }
  assert (Hjoin : Path.join [[]; Path.join_segments segs]
                  = Path.normalize (Path.join_segments segs)).
  { unfold Path.join. rewrite Hf. reflexivity. }
  rewrite Hjoin, normalize_nonempty by (rewrite Hf; discriminate).
  rewrite Hstarts, Hends. cbn [negb]. unfold Path.normalizeString.
  rewrite (split_join_segments segs Hne Hclean).
  rewrite (resolve_clean true segs [] Hclean). cbn [rev app].
  rewrite Hf. reflexivity.
Qed.

(** The text handed to the last replacement. *)
Lemma text_before_filtering : forall fuel rules parentDirectory s t,
  trimmed fuel (untrimmed rules parentDirectory s) = Ret t ->
  exists segs,
    Forall clean_segment segs /\
    Path.join [[]; t] =
    match segs with
    | [] => [dot]
    | _ :: _ => Path.join_segments segs
    end.
Proof.
  intros fuel rules pd s t H.
  pose proof (untrimmed_has_no_backslash rules pd s) as Hnb.
  unfold untrimmed in H, Hnb.
  destruct (first_separator_head (decode_pass rules s)) as (s1 & E1).
  rewrite E1 in H, Hnb.
  destruct (replace_by_slash_head pd s1) as (s2 & E2).
  rewrite E2 in H, Hnb.
  destruct (replace_by_slash_head separator_run s2) as (s3 & E3).
  rewrite E3 in H, Hnb.
  assert (Hs3 : Forall not_backslash (slash :: s3)).
  { rewrite <- E3. unfold replace. cbn [global separator_run].
    apply separator_run_removes_backslashes. }
  destruct (normalize_absolute s3 Hs3) as (segs & Hclean & Hnorm).
  rewrite Hnorm in H. exists segs. split; [assumption|].
  destruct segs as [|seg segs].
  - destruct fuel as [|[|n]]; vm_compute in H; [discriminate| |];
      inversion H; reflexivity.
  - apply trimmed_absolute in H; [|discriminate|assumption].
    subst t. apply join_clean_segments; [discriminate|assumption].
Qed.

(** Before the disallowed characters are removed the text has no
    separator at either end and none of its segments is [..]: whatever
    traversal or outer separator the returned string shows was made by the
    last replacement. *)
Lemma text_before_filtering_is_relative :
  forall fuel rules parentDirectory s t,
    trimmed fuel (untrimmed rules parentDirectory s) = Ret t ->
    starts_with_separator (Path.join [[]; t]) = false /\
    ends_with_separator (Path.join [[]; t]) = false /\
    Forall (fun seg => Path.is_dotdot seg = false)
           (Path.split (Path.join [[]; t])).
Proof.
  intros fuel rules pd s t H.
  destruct (text_before_filtering _ _ _ _ _ H) as (segs & Hclean & ->).
  destruct segs as [|seg segs].
  - repeat split. repeat constructor.
  - assert (Hne : seg :: segs <> []) by discriminate.
    destruct (join_segments_last _ Hne Hclean) as (l & c & Hl & Hc).
    destruct (join_segments_first _ Hne Hclean) as (c0 & l0 & Hf & Hc0).
    split; [|split].
    + rewrite Hf, starts_with_separator_first. exact Hc0.
    + rewrite Hl, ends_with_separator_last. exact Hc.
    + rewrite (split_join_segments _ Hne Hclean).
      apply Forall_impl with (P := clean_segment); [|assumption].
      intros a (_ & _ & Hdd & _). exact Hdd.
Qed.

End BeforeFiltering.

(** ** The shape of a call *)

Section CallShape.
Import JsString JsValue Sanitizer.

Lemma sanitize_rejected : forall fuel p o,
  rejects o = true ->
  sanitize fuel p o = mkCall (Throw (Error "options must be an object")) o.
Proof.
  intros fuel p o H. unfold rejects in H. unfold sanitize.
  destruct (truthy o); simpl in H; [|discriminate].
  rewrite H. reflexivity.
Qed.

(** A call whose options argument is an object: the defaulting lines,
    the coercion of the path, then the decode step, which needs the list
    of rules. *)
Lemma sanitize_obj : forall fuel p x,
  callable x = false ->
  sanitize fuel p (VObj x) =
  mkCall
    (match coerce p with
     | inl e => Throw e
     | inr s =>
         match decode_field (assign_defaults x) with
         | Holds rules =>
             bind (sanitize_text fuel rules
                     (pattern_argument
                        (parentDirectoryRegEx_field (assign_defaults x)))
                     (pattern_argument
                        (notAllowedRegEx_field (assign_defaults x)))
                     (of_string s))
                  (fun t => Ret (to_string t))
         | _ => Throw TypeError
         end
     end)
    (VObj (assign_defaults x)).
Proof.
  intros fuel p x Hx. unfold sanitize. cbn [truthy typeof_is_object].
  rewrite Hx. cbn [negb].
  destruct (coerce p) as [e|s]; cbn [bind]; [reflexivity|].
  destruct (decode_field (assign_defaults x)); reflexivity.
Qed.

(** A call whose options argument is falsy: the defaults, and nothing
    written. *)
Lemma sanitize_falsy : forall fuel p o,
  truthy o = false ->
  sanitize fuel p o =
  mkCall
    (match coerce p with
     | inl e => Throw e
     | inr s =>
         bind (sanitize_text fuel default_decode default_parentDirectoryRegEx
                 default_notAllowedRegEx (of_string s))
              (fun t => Ret (to_string t))
     end)
    o.
Proof.
  intros fuel p o H. unfold sanitize. rewrite H.
  unfold VObject. cbn [typeof_is_object negb].
  change (assign_defaults (plain DEFAULT_OPTIONS)) with (plain DEFAULT_OPTIONS).
  cbn [decode_field parentDirectoryRegEx_field notAllowedRegEx_field plain
       field_of_option decode parentDirectoryRegEx notAllowedRegEx
       DEFAULT_OPTIONS pattern_argument].
  destruct (coerce p); reflexivity.
Qed.

(** An options argument that passes the check is falsy or an object that
    is not a function. *)
Lemma accepted_options : forall o,
  rejects o = false ->
  truthy o = false \/ exists x, o = VObj x /\ callable x = false.
Proof.
  intros o H. unfold rejects in H.
  destruct (truthy o) eqn:Ht; [|left; reflexivity].
  destruct o; try discriminate. right. exists x. split; [reflexivity|].
  cbn in H. destruct (callable x); [discriminate|reflexivity].
Qed.

(** The text pipeline returns, and returns the same text for every budget
    from some budget on. *)
Lemma sanitize_text_returns : forall rules parentDirectory notAllowed s,
  exists N r, forall fuel, N <= fuel ->
    sanitize_text fuel rules parentDirectory notAllowed s = Ret r.
Proof.
  intros rules pd na s.
  set (N := List.length (untrimmed rules pd s)).
  destruct (sanitize_text_enough N rules pd na s (le_n _)) as [r Hr].
  exists N, r. intros fuel Hle.
  exact (sanitize_text_stable _ _ _ _ _ _ Hr fuel Hle).
Qed.

Lemma while_loop_never_throws (cond : text -> bool) (body : text -> text) :
  forall fuel s e, while_loop fuel cond body s <> Throw e.
Proof.
  induction fuel as [|fuel IH]; intros s e; simpl;
    destruct (cond s); try discriminate.
  apply IH.
Qed.

Lemma sanitize_text_never_throws : forall fuel rules parentDirectory notAllowed s e,
  sanitize_text fuel rules parentDirectory notAllowed s <> Throw e.
Proof.
  intros fuel rules pd na s e. unfold sanitize_text, trimmed.
  destruct (while_loop fuel ends_with_separator slice_to_last
              (untrimmed rules pd s)) as [r1|e1|] eqn:H1; simpl.
  - destruct (while_loop fuel starts_with_separator slice_from_1 r1)
      as [r2|e2|] eqn:H2; simpl; try discriminate.
    exfalso. exact (while_loop_never_throws _ _ _ _ _ H2).
  - exfalso. exact (while_loop_never_throws _ _ _ _ _ H1).
  - discriminate.
Qed.


End CallShape.

(** * Properties *)

Import JsString RegExp JsValue Sanitizer.

Local Open Scope string_scope.

(** ** Runs on the inputs of the README and of the tests *)

Example run_plain_path :
  run (VString "path/to/file.txt") = Ret "path/to/file.txt".
Proof. vm_compute. reflexivity. Qed.

Example run_parent_directories :
  run (VString "../../etc/passwd") = Ret "etc/passwd".
Proof. vm_compute. reflexivity. Qed.

Example run_backslash_parent_directories :
  run (VString "..\..\etc\passwd") = Ret "etc/passwd".
Proof. vm_compute. reflexivity. Qed.

Example run_disallowed_characters :
  run (VString "/path/$dir!/file|name.txt") = Ret "path/dir/filename.txt".
Proof. vm_compute. reflexivity. Qed.

Example run_invalid_path :
  run (VString "////////a\\../hi.txt") = Ret "a/hi.txt".
Proof. vm_compute. reflexivity. Qed.

Example run_number :
  run five_hundred = Ret "500".
Proof. vm_compute. reflexivity. Qed.

Example run_colon :
  run (VString "/:11^^") = Ret "11^^".
Proof. vm_compute. reflexivity. Qed.

Example run_nested_traversal :
  run (VString "../../../..//..\..\\path/to/file") = Ret "path/to/file".
Proof. vm_compute. reflexivity. Qed.

Example run_encoded_separators :
  run (VString "folder/%2f%5csubfolder%2f%5c..%5cfile.txt")
    = Ret "folder/subfolder/file.txt".
Proof. vm_compute. reflexivity. Qed.

Example run_options_not_an_object :
  result (sanitize 64 (VString "path") (VString "invalid options"))
    = Throw (Error "options must be an object").
Proof. vm_compute. reflexivity. Qed.

(** ** Runs of the reported traversal input

    On [traversal_payload] the decode pass turns each [%5c] into a backslash;
    no segment is [..] while the [=] signs are in place, so the
    parent-directory pattern and [path.normalize] leave the three [..=]
    segments alone; the last step deletes the [=] signs and the segments
    become [..]. *)

(** C1. The output for [traversal_payload] under the default options is
    [../../../etc/passwd]: it contains [..] with a [/] on both sides.  (It
    contains no backslash.) *)
Theorem C1_traversal_survives_character_filtering :
  exists out,
    (forall fuel,
       result (sanitize (S fuel) (VString traversal_payload) VUndefined) = Ret out) /\
    includes (of_string "/../") (of_string out) = true /\
    includes [backslash] (of_string out) = false.
Proof.
  exists "../../../etc/passwd". repeat split; try (vm_compute; reflexivity).
  intro fuel. destruct fuel; vm_compute; reflexivity.
Qed.

(** C2. Under the default options [sanitize "..=%5c..=%5c..=%5cetc/passwd"]
    returns [../../../etc/passwd], which is not [etc/passwd]. *)
Theorem C2_encoded_backslash_payload_result :
  forall fuel,
    result (sanitize (S fuel) (VString "..=%5c..=%5c..=%5cetc/passwd") VUndefined)
      = Ret "../../../etc/passwd" /\
    result (sanitize (S fuel) (VString "..=%5c..=%5c..=%5cetc/passwd") VUndefined)
      <> Ret "etc/passwd".
Proof.
  intro fuel. split.
  - destruct fuel; vm_compute; reflexivity.
  - destruct fuel; vm_compute; intro H; inversion H.
Qed.

(** C3. With the base [/var/app-dir] and the payload of the repository's
    test "Protects reported vulnerability #1" ([..=%5c] seven times before
    [etc/passwd]), [path.join base (sanitize payload)] is [/etc/passwd],
    which is not inside the base. *)
Theorem C3_joined_path_leaves_base :
  let base := of_string "/var/app-dir" in
  let payload := "..=%5c..=%5c..=%5c..=%5c..=%5c..=%5c..=%5cetc/passwd" in
  exists out,
    (forall fuel, result (sanitize (S fuel) (VString payload) VUndefined) = Ret out) /\
    Path.join [base; of_string out] = of_string "/etc/passwd" /\
    Path.inside base (Path.join [base; of_string out]) = false.
Proof.
  exists "../../../../../../../etc/passwd".
  repeat split; try (vm_compute; reflexivity).
  intro fuel. destruct fuel; vm_compute; reflexivity.
Qed.

(** C4. Sanitizing [traversal_payload] gives [../../../etc/passwd];
    sanitizing that gives [etc/passwd]: the second application changes the
    result of the first. *)
Theorem C4_second_application_changes_result :
  exists once twice,
    (forall fuel,
       result (sanitize (S fuel) (VString traversal_payload) VUndefined) = Ret once) /\
    (forall fuel, result (sanitize (S fuel) (VString once) VUndefined) = Ret twice) /\
    once <> twice.
Proof.
  exists "../../../etc/passwd", "etc/passwd".
  repeat split; try (intro fuel; destruct fuel; vm_compute; reflexivity).
  intro H. inversion H.
Qed.

(** C5. [sanitize "=/a/="] returns [/a/], which starts and ends with [/]:
    the two [=] signs shield the separators from the trimming loops and are
    deleted afterwards. *)
Theorem C5_separator_exposed_at_both_ends :
  exists out,
    (forall fuel, result (sanitize (S fuel) (VString "=/a/=") VUndefined) = Ret out) /\
    startsWith slash (of_string out) = true /\
    endsWith slash (of_string out) = true.
Proof.
  exists "/a/". repeat split; try (vm_compute; reflexivity).
  intro fuel. destruct fuel; vm_compute; reflexivity.
Qed.

(** C7. Called with the empty object [{}] as options, [sanitize] leaves
    that object with all three fields set to the defaults: the caller's
    object is not what it was before the call. *)
Theorem C7_empty_options_object_is_filled_in :
  let cfg := mkOptions None None None in
  forall fuel,
    options_after (sanitize fuel (VString "a") (VObject cfg)) = VObject DEFAULT_OPTIONS /\
    options_after (sanitize fuel (VString "a") (VObject cfg)) <> VObject cfg.
Proof.
  intros cfg fuel. split.
  - reflexivity.
  - cbn. intro H. inversion H.
Qed.

(** C8. Under the default options [sanitize "%2e%2e%2fetc%2fpasswd"]
    returns [etc/passwd], whatever the iteration budget from one up; the
    decode rules, each applied to the whole text in the order written,
    produce [../etc/passwd] before any separator-based step runs. *)
Theorem C8_percent_encoded_traversal_decoded :
  (forall fuel,
     result (sanitize (S fuel) (VString "%2e%2e%2fetc%2fpasswd") VUndefined)
       = Ret "etc/passwd") /\
  option_map (fun rules => decode_pass rules (of_string "%2e%2e%2fetc%2fpasswd"))
             (decode DEFAULT_OPTIONS)
    = Some (of_string "../etc/passwd").
Proof.
  split.
  - intro fuel. destruct fuel; vm_compute; reflexivity.
  - vm_compute. reflexivity.
Qed.

(** ** What holds of every output

    Under the default options, whatever the path argument, a returned
    string holds no backslash: the separator-run replacement removes them
    all and no later step writes one. *)
Lemma sanitize_output_has_no_backslash : forall fuel p out,
  result (sanitize fuel p VUndefined) = Ret out ->
  Forall not_backslash (of_string out).
Proof.
  intros fuel p out H. unfold sanitize in H. cbn -[sanitize_text coerce] in H.
  destruct (coerce p) as [e|s]; cbn -[sanitize_text] in H; [discriminate|].
  destruct (sanitize_text fuel default_decode default_parentDirectoryRegEx
              default_notAllowedRegEx (of_string s)) as [r| |] eqn:Hr;
    cbn in H; try discriminate.
  inversion H; subst out. unfold of_string, to_string.
  rewrite list_ascii_of_string_of_list_ascii.
  eapply sanitize_text_has_no_backslash; [|exact Hr]. reflexivity.
Qed.

(** ** Failures and termination *)




(** C9.  Each trimming loop, started on a text of [n] characters, ends
    within [n] iterations; the text pipeline returns as soon as the budget
    reaches the length of the text the loops start on, whatever the rules
    and patterns; and for every path and options argument the call has an
    outcome, a value or a raised failure, that no larger budget changes. *)
Theorem C9_sanitize_terminates :
  (forall fuel s, List.length s <= fuel ->
     exists r, while_loop fuel ends_with_separator slice_to_last s = Ret r /\
               ends_with_separator r = false) /\
  (forall fuel s, List.length s <= fuel ->
     exists r, while_loop fuel starts_with_separator slice_from_1 s = Ret r /\
               starts_with_separator r = false) /\
  (forall fuel rules parentDirectory notAllowed s,
     List.length (untrimmed rules parentDirectory s) <= fuel ->
     exists r, sanitize_text fuel rules parentDirectory notAllowed s = Ret r) /\
  (forall p o, exists N out,
     out <> OutOfFuel /\
     forall fuel, N <= fuel -> result (sanitize fuel p o) = out).
Proof.
  repeat split.
  - intros fuel s Hlen.
    destruct (while_loop_enough _ _ slice_to_last_shrinks fuel s Hlen)
      as (r & Hr & _ & Hc). eauto.
  - intros fuel s Hlen.
    destruct (while_loop_enough _ _ slice_from_1_shrinks fuel s Hlen)
      as (r & Hr & _ & Hc). eauto.
  - apply sanitize_text_enough.
  - intros p o. destruct (rejects o) eqn:Hrej.
    + exists 0, (Throw (Error "options must be an object")).
      split; [discriminate|]. intros fuel _.
      rewrite (sanitize_rejected fuel p o Hrej). reflexivity.
    + destruct (coerce p) as [e|s] eqn:Hco.
      * exists 0, (Throw e). split; [discriminate|]. intros fuel _.
        destruct (accepted_options o Hrej) as [Hf|(x & -> & Hx)].
        -- rewrite (sanitize_falsy fuel p o Hf), Hco. reflexivity.
        -- rewrite (sanitize_obj fuel p x Hx), Hco. reflexivity.
      * destruct (accepted_options o Hrej) as [Hf|(x & -> & Hx)].
        -- destruct (sanitize_text_returns default_decode
                       default_parentDirectoryRegEx default_notAllowedRegEx
                       (of_string s)) as (N & r & Hr).
           exists N, (Ret (to_string r)). split; [discriminate|].
           intros fuel Hle.
           rewrite (sanitize_falsy fuel p o Hf), Hco. cbn [result].
           rewrite (Hr fuel Hle). reflexivity.
        -- destruct (decode_field (assign_defaults x)) as [|v|rules] eqn:Hd.
           ++ exists 0, (Throw TypeError). split; [discriminate|].
              intros fuel _. rewrite (sanitize_obj fuel p x Hx), Hco, Hd.
              reflexivity.
           ++ exists 0, (Throw TypeError). split; [discriminate|].
              intros fuel _. rewrite (sanitize_obj fuel p x Hx), Hco, Hd.
              reflexivity.
           ++ destruct (sanitize_text_returns rules
                          (pattern_argument
                             (parentDirectoryRegEx_field (assign_defaults x)))
                          (pattern_argument
                             (notAllowedRegEx_field (assign_defaults x)))
                          (of_string s)) as (N & r & Hr).
              exists N, (Ret (to_string r)). split; [discriminate|].
              intros fuel Hle.
              rewrite (sanitize_obj fuel p x Hx), Hco, Hd. cbn [result].
              rewrite (Hr fuel Hle). reflexivity.
Qed.

Lemma C9_sanitize_terminates_witness :
  List.length (of_string "ab//") <= 4 /\
  exists r, while_loop 4 ends_with_separator slice_to_last (of_string "ab//") = Ret r /\
            ends_with_separator r = false.
Proof.
  split; [vm_compute; lia|].
  apply (proj1 C9_sanitize_terminates). vm_compute. lia.
Defined.

(** ** The empty result *)

(** C10.  Under the default options the empty string is sanitized to
    ["."]; so is every string made of separators only; and so is every
    string that leaves the trimming loops empty, because [path.join] of two
    empty strings is ["."], which the last replacement keeps. *)
Theorem C10_empty_pipeline_result_is_dot :
  (forall fuel, result (sanitize (S fuel) (VString "") VUndefined) = Ret ".") /\
  (forall fuel s,
     only_separators (of_string s) = true ->
     result (sanitize (S fuel) (VString s) VUndefined) = Ret ".") /\
  (forall fuel s,
     trimmed fuel (untrimmed default_decode default_parentDirectoryRegEx
                             (of_string s)) = Ret [] ->
     result (sanitize fuel (VString s) VUndefined) = Ret ".").
Proof.
  assert (Hempty : forall fuel s,
     trimmed fuel (untrimmed default_decode default_parentDirectoryRegEx
                             (of_string s)) = Ret [] ->
     result (sanitize fuel (VString s) VUndefined) = Ret ".").
  { intros fuel s H. unfold sanitize. cbn -[sanitize_text].
    unfold sanitize_text. rewrite H. vm_compute. reflexivity. }
  assert (Hseps : forall fuel s,
     only_separators (of_string s) = true ->
     result (sanitize (S fuel) (VString s) VUndefined) = Ret ".").
  { intros fuel s Hs. apply Hempty.
    rewrite (untrimmed_only_separators _ Hs).
    destruct fuel; reflexivity. }
  split; [|split].
  - intro fuel. apply Hseps. reflexivity.
  - exact Hseps.
  - exact Hempty.
Qed.

Lemma C10_empty_pipeline_result_is_dot_witness :
  only_separators (of_string "//\/\\") = true /\
  result (sanitize 3 (VString "//\/\\") VUndefined) = Ret ".".
Proof.
  split; [reflexivity|].
  apply (proj1 (proj2 C10_empty_pipeline_result_is_dot) 2 "//\/\\").
  reflexivity.
Defined.

(** * Further properties *)

Local Close Scope string_scope.

(** ** What a match leaves *)

Section MatchSuffix.
Import JsString RegExp.

(** A match hands its continuation what is left of the text after some
    number of characters. *)
Lemma star_iter_suffix (m : bool -> text -> (bool -> text -> option text) -> option text) :
  (forall bol s k t, m bol s k = Some t ->
     exists bol' n, k bol' (skipn n s) = Some t) ->
  forall k n bol s t, star_iter m k n bol s = Some t ->
    exists bol' j, k bol' (skipn j s) = Some t.
Proof.
  intros Hm k. induction n as [|n IH]; intros bol s t H; cbn [star_iter] in H.
  - exists bol, 0. exact H.
  - destruct (m bol s
               (fun bol' s' =>
                  if List.length s' <? List.length s
                  then star_iter m k n bol' s' else None)) as [t0|] eqn:E.
    + inversion H; subst t0. apply Hm in E. destruct E as (bol' & j & E).
      destruct (List.length (skipn j s) <? List.length s); [|discriminate].
      apply IH in E. destruct E as (bol'' & j' & E).
      exists bol'', (j' + j). rewrite <- skipn_skipn. exact E.
    + exists bol, 0. exact H.
Qed.

Lemma rmatch_suffix : forall r bol s k t,
  rmatch r bol s k = Some t -> exists bol' n, k bol' (skipn n s) = Some t.
Proof.
  induction r as [| |c|cs|a IHa b IHb|a IHa b IHb|a IHa|a IHa];
    intros bol s k t H.
  - exists bol, 0. exact H.
  - cbn [rmatch] in H. destruct bol; [|discriminate]. exists true, 0. exact H.
  - cbn [rmatch] in H. destruct s as [|x s]; [discriminate|].
    destruct (Ascii.eqb x c); [|discriminate]. exists false, 1. exact H.
  - cbn [rmatch] in H. destruct s as [|x s]; [discriminate|].
    destruct (in_class x cs); [|discriminate]. exists false, 1. exact H.
  - change (rmatch (Seq a b) bol s k)
      with (rmatch a bol s (fun bol' s' => rmatch b bol' s' k)) in H.
    apply IHa in H. destruct H as (bol1 & n1 & H).
    apply IHb in H. destruct H as (bol2 & n2 & H).
    exists bol2, (n2 + n1). rewrite <- skipn_skipn. exact H.
  - change (rmatch (Alt a b) bol s k)
      with (match rmatch a bol s k with
            | Some t => Some t
            | None => rmatch b bol s k
            end) in H.
    destruct (rmatch a bol s k) as [t0|] eqn:E.
    + inversion H; subst t0. apply IHa in E. exact E.
    + apply IHb in H. exact H.
  - change (rmatch (Opt a) bol s k)
      with (match rmatch a bol s k with
            | Some t => Some t
            | None => k bol s
            end) in H.
    destruct (rmatch a bol s k) as [t0|] eqn:E.
    + inversion H; subst t0. apply IHa in E. exact E.
    + exists bol, 0. exact H.
  - change (rmatch (Star a) bol s k)
      with (star_iter (rmatch a) k (List.length s) bol s) in H.
    apply (star_iter_suffix (rmatch a) IHa) in H. exact H.
Qed.

Lemma match_here_suffix : forall r bol s rest,
  match_here r bol s = Some rest -> exists n, rest = skipn n s.
Proof.
  intros r bol s rest H. unfold match_here in H.
  apply rmatch_suffix in H. destruct H as (_ & n & H).
  inversion H. eauto.
Qed.

Lemma Forall_skipn_text (Q : ascii -> Prop) : forall n (s : text),
  Forall Q s -> Forall Q (skipn n s).
Proof.
  induction n as [|n IH]; intros s H; [exact H|].
  destruct s as [|c s]; [constructor|]. inversion H; subst. apply IH. assumption.
Qed.

(** A replacement writes characters of the text and of the replacement
    string only. *)
Lemma replace_global_chars (Q : ascii -> Prop) : forall r by_ s bol skip,
  Forall Q by_ -> Forall Q s -> Forall Q (replace_global r by_ bol skip s).
Proof.
  intros r by_ s. induction s as [|c s IH]; intros bol skip Hby Hs;
    cbn [replace_global].
  - destruct skip; [destruct (match_here r bol [])|]; try constructor; assumption.
  - inversion Hs as [|? ? Hc Hs']; subst.
    destruct skip as [|n]; [|apply IH; assumption].
    destruct (match_here r bol (c :: s)) as [rest|].
    + destruct (List.length (c :: s) - List.length rest) as [|n];
        apply Forall_app; split; try assumption.
      * constructor; [assumption | apply IH; assumption].
      * apply IH; assumption.
    + constructor; [assumption | apply IH; assumption].
Qed.

Lemma replace_first_chars (Q : ascii -> Prop) : forall r by_ s bol,
  Forall Q by_ -> Forall Q s -> Forall Q (replace_first r by_ bol s).
Proof.
  intros r by_ s. induction s as [|c s IH]; intros bol Hby Hs;
    cbn [replace_first].
  - destruct (match_here r bol []) as [rest|] eqn:E; [|constructor].
    apply match_here_suffix in E. destruct E as (n & ->).
    apply Forall_app. split; [assumption|]. apply Forall_skipn_text. assumption.
  - destruct (match_here r bol (c :: s)) as [rest|] eqn:E.
    + apply match_here_suffix in E. destruct E as (n & ->).
      apply Forall_app. split; [assumption|]. apply Forall_skipn_text. assumption.
    + inversion Hs; subst. constructor; [assumption | apply IH; assumption].
Qed.

Lemma replace_chars (Q : ascii -> Prop) : forall rx by_ s,
  Forall Q by_ -> Forall Q s -> Forall Q (replace rx by_ s).
Proof.
  intros rx by_ s Hby Hs. unfold replace.
  destruct (global rx); [apply replace_global_chars | apply replace_first_chars];
    assumption.
Qed.

End MatchSuffix.

(** ** Calls that return *)

Section Calls.
Import JsString RegExp JsValue Sanitizer.

Lemma assign_defaults_plain : forall o,
  assign_defaults (plain o) =
  plain (mkOptions (Some (effective_decode o))
                   (Some (effective_parentDirectory o))
                   (Some (effective_notAllowed o))).
Proof.
  intros [[d|] [pd|] [na|]]; reflexivity.
Qed.

Lemma sanitize_object : forall fuel p o,
  sanitize fuel p (VObject o) =
  mkCall
    (match coerce p with
     | inl e => Throw e
     | inr s =>
         bind (sanitize_text fuel (effective_decode o)
                 (effective_parentDirectory o) (effective_notAllowed o)
                 (of_string s))
              (fun t => Ret (to_string t))
     end)
    (VObject (mkOptions (Some (effective_decode o))
                        (Some (effective_parentDirectory o))
                        (Some (effective_notAllowed o)))).
Proof.
  intros fuel p o. unfold VObject.
  rewrite (sanitize_obj fuel p (plain o) eq_refl), (assign_defaults_plain o).
  reflexivity.
Qed.


Lemma default_call_returns : forall p s,
  coerce p = inr s ->
  exists N r,
    sanitize_text N default_decode default_parentDirectoryRegEx
                  default_notAllowedRegEx (of_string s) = Ret r /\
    forall fuel, N <= fuel ->
      result (sanitize fuel p VUndefined) = Ret (to_string r).
Proof.
  intros p s Hco.
  set (N := List.length (untrimmed default_decode default_parentDirectoryRegEx
                           (of_string s))).
  destruct (sanitize_text_enough N default_decode default_parentDirectoryRegEx
              default_notAllowedRegEx (of_string s) (le_n _)) as [r Hr].
  exists N, r. split; [exact Hr|]. intros fuel Hle.
  rewrite (sanitize_falsy fuel p VUndefined eq_refl), Hco. cbn [result].
  rewrite (sanitize_text_stable _ _ _ _ _ _ Hr fuel Hle). reflexivity.
Qed.

Lemma of_to_string : forall t, of_string (to_string t) = t.
Proof.
  intro t. unfold of_string, to_string.
  apply list_ascii_of_string_of_list_ascii.
Qed.

End Calls.

(** ** The last replacement of the default options *)

Section Filtering.
Import JsString RegExp JsValue Sanitizer.

Lemma alternatives_match_nil : forall cs bol,
  cs <> [] -> match_here (alternatives cs) bol [] = None.
Proof.
  induction cs as [|c cs IH]; intros bol Hne; [contradiction|].
  destruct cs as [|c' cs']; [reflexivity|].
  unfold match_here in *. cbn [alternatives rmatch].
  apply (IH bol). discriminate.
Qed.

Lemma alternatives_match_cons : forall cs bol x s,
  cs <> [] ->
  match_here (alternatives cs) bol (x :: s) =
  if in_class x cs then Some s else None.
Proof.
  induction cs as [|c cs IH]; intros bol x s Hne; [contradiction|].
  destruct cs as [|c' cs'].
  - unfold match_here, in_class. cbn [alternatives rmatch existsb].
    rewrite orb_false_r. reflexivity.
  - assert (IH' := IH bol x s ltac:(discriminate)).
    unfold match_here in *.
    change (alternatives (c :: c' :: cs'))
      with (Alt (Chr c) (alternatives (c' :: cs'))).
    change (in_class x (c :: c' :: cs'))
      with (Ascii.eqb x c || in_class x (c' :: cs')).
    change (rmatch (Alt (Chr c) (alternatives (c' :: cs'))) bol (x :: s)
              (fun _ rest => Some rest))
      with (match (if Ascii.eqb x c then Some s else None) with
            | Some t => Some t
            | None => rmatch (alternatives (c' :: cs')) bol (x :: s)
                        (fun _ rest => Some rest)
            end).
    rewrite IH'. destruct (Ascii.eqb x c); reflexivity.
Qed.

(** Replacing a one-character alternation by the empty string deletes
    exactly the characters of the alternation. *)
Lemma replace_alternatives_filter : forall cs s bol,
  cs <> [] ->
  replace_global (alternatives cs) [] bol 0 s =
  filter (fun c => negb (in_class c cs)) s.
Proof.
  intros cs s. induction s as [|c s IH]; intros bol Hne; cbn [replace_global filter].
  - rewrite alternatives_match_nil by assumption. reflexivity.
  - rewrite alternatives_match_cons by assumption.
    destruct (in_class c cs); cbn [negb].
    + replace (List.length (c :: s) - List.length s) with 1
        by (cbn [List.length]; lia).
      cbn [app]. apply IH. assumption.
    + f_equal. apply IH. assumption.
Qed.

Lemma default_filter : forall t,
  replace default_notAllowedRegEx [] t = filter allowed_char t.
Proof.
  intro t. unfold replace, default_notAllowedRegEx. cbn [global pattern].
  apply replace_alternatives_filter. discriminate.
Qed.

Lemma filter_allowed_text : forall t,
  allowed_text t = true -> filter allowed_char t = t.
Proof.
  induction t as [|c t IH]; intro H; [reflexivity|].
  cbn [allowed_text forallb] in H. apply andb_prop in H. destruct H as [Hc Ht].
  cbn [filter]. rewrite Hc. f_equal. apply IH. exact Ht.
Qed.


End Filtering.





(** ** Inputs without disallowed characters *)

Section AllowedInputs.
Import JsString RegExp JsValue Sanitizer.

Lemma decode_pass_chars (Q : ascii -> Prop) : forall rules s,
  Forall (fun d => Forall Q (replacement d)) rules ->
  Forall Q s -> Forall Q (decode_pass rules s).
Proof.
  unfold decode_pass. induction rules as [|d rules IH]; intros s Hr Hs;
    cbn [fold_left]; [exact Hs|].
  inversion Hr; subst. apply IH; [assumption|].
  apply replace_chars; assumption.
Qed.

(** Up to [path.normalize] the text holds characters of the input, of the
    decode replacements, [/] and [.] only. *)
Lemma untrimmed_chars (Q : ascii -> Prop) : forall rules parentDirectory s,
  Q slash -> Q dot ->
  Forall (fun d => Forall Q (replacement d)) rules ->
  Forall Q s -> Forall Q (untrimmed rules parentDirectory s).
Proof.
  intros rules pd s Hslash Hdot Hr Hs. unfold untrimmed.
  assert (Hby : Forall Q [slash]) by (repeat constructor; assumption).
  apply normalize_chars; try assumption.
  repeat (apply replace_chars; [exact Hby|]).
  apply decode_pass_chars; assumption.
Qed.

Lemma default_decode_chars (Q : ascii -> Prop) :
  Q dot -> Q slash -> Q backslash ->
  Forall (fun d => Forall Q (replacement d)) default_decode.
Proof.
  intros. unfold default_decode. repeat constructor; assumption.
Qed.

Lemma forallb_Forall_text (f : ascii -> bool) : forall s : text,
  forallb f s = true <-> Forall (fun c => f c = true) s.
Proof.
  intro s. rewrite forallb_forall, Forall_forall. reflexivity.
Qed.

Lemma clean_segment_decide : forall seg,
  clean_segment seg -> clean_segment_b seg = true.
Proof.
  intros seg (Hne & Hd & Hdd & Hsep). unfold clean_segment_b.
  rewrite Hd, Hdd. cbn [negb andb].
  assert (Hlen : Nat.eqb (List.length seg) 0 = false)
    by (destruct seg; [contradiction | reflexivity]).
  rewrite Hlen. cbn [negb andb].
  apply forallb_forall. intros c Hc.
  rewrite Forall_forall in Hsep. specialize (Hsep c Hc).
  unfold no_separator in Hsep. rewrite Hsep. reflexivity.
Qed.

Lemma clean_segment_b_spec : forall seg,
  clean_segment_b seg = true -> clean_segment seg.
Proof.
  intros seg H. unfold clean_segment_b in H.
  apply andb_prop in H. destruct H as [H Hsep].
  apply andb_prop in H. destruct H as [H Hdd].
  apply andb_prop in H. destruct H as [Hne Hd].
  repeat split.
  - intro E. subst seg. discriminate Hne.
  - destruct (Path.is_dot seg); [discriminate | reflexivity].
  - destruct (Path.is_dotdot seg); [discriminate | reflexivity].
  - apply Forall_forall. intros c Hc.
    rewrite forallb_forall in Hsep. specialize (Hsep c Hc).
    unfold no_separator. destruct (in_class c separators);
      [discriminate | reflexivity].
Qed.

(** With an input free of disallowed characters the last replacement has
    nothing to delete: the returned text is the text before it. *)
Lemma allowed_input_text : forall fuel s r,
  allowed_text s = true ->
  sanitize_text fuel default_decode default_parentDirectoryRegEx
                default_notAllowedRegEx s = Ret r ->
  allowed_text r = true /\
  exists segs,
    Forall clean_segment segs /\
    r = match segs with
        | [] => [dot]
        | _ :: _ => Path.join_segments segs
        end.
Proof.
  intros fuel s r Hs H. unfold sanitize_text in H.
  destruct (trimmed fuel (untrimmed default_decode default_parentDirectoryRegEx s))
    as [t| |] eqn:Ht; cbn [bind] in H; try discriminate.
  inversion H as [Hr]. clear H.
  assert (Hj : allowed_text (Path.join [[]; t]) = true).
  { apply forallb_Forall_text. apply join_chars; try reflexivity.
    eapply trimmed_chars; [|exact Ht].
    apply untrimmed_chars; try reflexivity.
    - apply default_decode_chars; reflexivity.
    - apply forallb_Forall_text. exact Hs. }
  rewrite default_filter, (filter_allowed_text _ Hj).
  split; [exact Hj|].
  destruct (text_before_filtering _ _ _ _ _ Ht) as (segs & Hclean & Hjoin).
  exists segs. split; assumption.
Qed.

End AllowedInputs.

(** X3.  When the text of the path holds none of the disallowed
    characters, the call under the default options returns either [.] or
    a relative path in which every segment between [/] characters is
    non-empty, is neither [.] nor [..], and holds no backslash; so the
    returned string neither starts nor ends with a separator and has no
    [..] segment. *)
Theorem X3_allowed_input_gives_clean_relative_path : forall p s,
  coerce p = inr s ->
  allowed_text (of_string s) = true ->
  exists N out,
    (forall fuel, N <= fuel -> result (sanitize fuel p VUndefined) = Ret out) /\
    (of_string out = [dot] \/
     forallb clean_segment_b (Path.split (of_string out)) = true) /\
    starts_with_separator (of_string out) = false /\
    ends_with_separator (of_string out) = false /\
    Forall (fun seg => Path.is_dotdot seg = false) (Path.split (of_string out)).
Proof.
  intros p s Hco Hs.
  destruct (default_call_returns p s Hco) as (N & r & Hr & Hcall).
  exists N, (to_string r). split; [exact Hcall|].
  rewrite of_to_string.
  destruct (allowed_input_text _ _ _ Hs Hr) as (_ & segs & Hclean & ->).
  destruct segs as [|seg segs].
  - split; [left; reflexivity|]. repeat split. repeat constructor.
  - assert (Hne : seg :: segs <> []) by discriminate.
    rewrite (split_join_segments _ Hne Hclean).
    destruct (join_segments_last _ Hne Hclean) as (l & c & Hl & Hc).
    destruct (join_segments_first _ Hne Hclean) as (c0 & l0 & Hf & Hc0).
    split; [|split; [|split]].
    + right. apply forallb_forall. intros x Hx.
      apply clean_segment_decide.
      rewrite Forall_forall in Hclean. exact (Hclean x Hx).
    + rewrite Hf, starts_with_separator_first. exact Hc0.
    + rewrite Hl, ends_with_separator_last. exact Hc.
    + apply Forall_impl with (P := clean_segment); [|assumption].
      intros a (_ & _ & Hdd & _). exact Hdd.
Qed.

Lemma X3_allowed_input_gives_clean_relative_path_witness :
  exists N out,
    (forall fuel, N <= fuel ->
       result (sanitize fuel (VString "..\..//%2e%2e%5ca/./b/"%string) VUndefined)
         = Ret out) /\
    (of_string out = [dot] \/
     forallb clean_segment_b (Path.split (of_string out)) = true) /\
    starts_with_separator (of_string out) = false /\
    ends_with_separator (of_string out) = false /\
    Forall (fun seg => Path.is_dotdot seg = false) (Path.split (of_string out)).
Proof.
  apply (X3_allowed_input_gives_clean_relative_path
           (VString "..\..//%2e%2e%5ca/./b/"%string)
           "..\..//%2e%2e%5ca/./b/"%string); reflexivity.
Defined.

(** ** [path.normalize] and [path.join], segment by segment *)

Section Segments.
Import JsString.

Lemma split_not_nil : forall s, Path.split s <> [].
Proof.
  intros [|c s]; cbn [Path.split]; [discriminate|].
  destruct (Ascii.eqb c slash); [discriminate|].
  destruct (Path.split s); discriminate.
Qed.

(** Splitting at a [/] splits the list of segments. *)
Lemma split_app_slash : forall a b,
  Path.split (a ++ slash :: b) = Path.split a ++ Path.split b.
Proof.
  induction a as [|c a IH]; intro b.
  - reflexivity.
  - cbn [app Path.split]. rewrite IH.
    destruct (Ascii.eqb c slash); [reflexivity|].
    pose proof (split_not_nil a) as Hne.
    destruct (Path.split a) as [|seg segs]; [contradiction | reflexivity].
Qed.

Lemma split_noslash : forall seg,
  Forall (fun c => Ascii.eqb c slash = false) seg -> Path.split seg = [seg].
Proof.
  induction seg as [|c seg IH]; intro H; cbn [Path.split]; [reflexivity|].
  inversion H as [|? ? Hc Hseg]; subst.
  rewrite Hc, (IH Hseg). reflexivity.
Qed.

Lemma split_noslash_all : forall s,
  Forall (Forall (fun c => Ascii.eqb c slash = false)) (Path.split s).
Proof.
  induction s as [|c s IH]; cbn [Path.split].
  - repeat constructor.
  - destruct (Ascii.eqb c slash) eqn:E.
    + constructor; [constructor | assumption].
    + destruct (Path.split s) as [|seg segs].
      * repeat constructor. exact E.
      * inversion IH; subst. constructor; [constructor|]; assumption.
Qed.

Lemma split_join_kept : forall segs,
  segs <> [] -> Forall kept_segment segs ->
  Path.split (Path.join_segments segs) = segs.
Proof.
  induction segs as [|seg segs IH]; intros Hne H; [contradiction|].
  inversion H as [|? ? (_ & _ & Hseg) Hsegs]; subst.
  destruct segs as [|seg' segs'].
  - cbn [Path.join_segments]. apply split_noslash. assumption.
  - rewrite join_segments_cons, split_app_slash, (split_noslash _ Hseg).
    rewrite IH; [reflexivity | discriminate | assumption].
Qed.

(** The walk over a list of segments, continued. *)
Lemma resolve_app : forall allowAboveRoot xs ys kept,
  Path.resolve allowAboveRoot (xs ++ ys) kept =
  Path.resolve allowAboveRoot ys (rev (Path.resolve allowAboveRoot xs kept)).
Proof.
  intros a xs ys. induction xs as [|seg xs IH]; intro kept; cbn [app Path.resolve].
  - rewrite rev_involutive. reflexivity.
  - destruct seg as [|c seg]; [apply IH|].
    destruct (Path.is_dot (c :: seg)); [apply IH|].
    destruct (Path.is_dotdot (c :: seg)); [|apply IH].
    destruct kept as [|top below]; [apply IH|].
    destruct (Path.is_dotdot top); apply IH.
Qed.

(** Empty segments and [.] are invisible to the walk. *)
Lemma resolve_components : forall allowAboveRoot segs kept,
  Path.resolve allowAboveRoot
    (filter (fun seg : list ascii => negb (Nat.eqb (List.length seg) 0) &&
                        negb (Path.is_dot seg)) segs) kept =
  Path.resolve allowAboveRoot segs kept.
Proof.
  intros a segs. induction segs as [|seg segs IH]; intro kept; [reflexivity|].
  cbn [filter]. destruct seg as [|c seg].
  - cbn [List.length Nat.eqb negb andb Path.resolve]. apply IH.
  - cbn [List.length Nat.eqb negb andb].
    destruct (Path.is_dot (c :: seg)) eqn:Ed; cbn [negb].
    + cbn [Path.resolve]. rewrite Ed. apply IH.
    + cbn [Path.resolve]. rewrite Ed.
      destruct (Path.is_dotdot (c :: seg)); [|apply IH].
      destruct kept as [|top below]; [apply IH|].
      destruct (Path.is_dotdot top); apply IH.
Qed.

Lemma text_eqb_eq : forall a b, Path.text_eqb a b = true -> a = b.
Proof.
  intros a b H. unfold Path.text_eqb in H.
  destruct (list_eq_dec ascii_dec a b); [assumption | discriminate].
Qed.

Lemma text_eqb_refl : forall a, Path.text_eqb a a = true.
Proof.
  intro a. unfold Path.text_eqb.
  destruct (list_eq_dec ascii_dec a a); [reflexivity | contradiction].
Qed.

Lemma dotdot_kept : forall seg, Path.is_dotdot seg = true -> kept_segment seg.
Proof.
  intros seg H. apply text_eqb_eq in H. subst seg.
  repeat split; try discriminate. repeat constructor.
Qed.

Lemma dotdots_resolved : forall kept,
  Forall (fun s => Path.is_dotdot s = true) kept -> resolved_stack true kept.
Proof.
  induction kept as [|seg kept IH]; intro H; [exact I|].
  inversion H as [|? ? Hseg Hkept]; subst. cbn [resolved_stack].
  split; [apply dotdot_kept; assumption|].
  rewrite Hseg. split; [reflexivity | assumption].
Qed.

Lemma resolved_stack_kept : forall a kept,
  resolved_stack a kept -> Forall kept_segment kept.
Proof.
  intros a. induction kept as [|seg kept IH]; intro H; [constructor|].
  cbn [resolved_stack] in H. destruct H as [Hseg H].
  constructor; [assumption|].
  destruct (Path.is_dotdot seg).
  - destruct H as [_ H]. apply Forall_impl with (2 := H).
    intros s Hs. apply dotdot_kept. assumption.
  - apply IH. assumption.
Qed.

Lemma resolved_stack_below : forall a seg kept,
  resolved_stack a (seg :: kept) -> resolved_stack a kept.
Proof.
  intros a seg kept H. cbn [resolved_stack] in H. destruct H as [_ H].
  destruct (Path.is_dotdot seg); [|assumption].
  destruct H as [-> H]. apply dotdots_resolved. assumption.
Qed.

(** The walk keeps its stack in resolved form. *)
Lemma resolve_keeps_stack : forall a segs kept,
  Forall (Forall (fun c => Ascii.eqb c slash = false)) segs -> resolved_stack a kept ->
  resolved_stack a (rev (Path.resolve a segs kept)).
Proof.
  intros a segs. induction segs as [|seg segs IH]; intros kept Hsegs Hkept;
    cbn [Path.resolve].
  - rewrite rev_involutive. assumption.
  - inversion Hsegs as [|? ? Hseg Hrest]; subst.
    destruct seg as [|c seg]; [apply IH; assumption|].
    destruct (Path.is_dot (c :: seg)) eqn:Ed; [apply IH; assumption|].
    destruct (Path.is_dotdot (c :: seg)) eqn:Edd.
    + destruct kept as [|top below].
      * apply IH; [assumption|]. destruct a; [|exact I].
        cbn [resolved_stack]. rewrite Edd.
        split; [apply dotdot_kept; assumption|]. split; [reflexivity | constructor].
      * destruct (Path.is_dotdot top) eqn:Et.
        -- apply IH; [assumption|]. destruct a; [|assumption].
           cbn [resolved_stack]. rewrite Edd.
           split; [apply dotdot_kept; assumption|]. split; [reflexivity|].
           constructor; [assumption|].
           cbn [resolved_stack] in Hkept. rewrite Et in Hkept. tauto.
        -- apply IH; [assumption|].
           apply (resolved_stack_below a top below Hkept).
    + apply IH; [assumption|]. cbn [resolved_stack]. rewrite Edd.
      split; [|assumption]. repeat split; try assumption. discriminate.
Qed.

(** Walking over a resolved list of segments changes nothing. *)
Lemma resolve_fixed : forall a kept,
  resolved_stack a kept -> Path.resolve a (rev kept) [] = rev kept.
Proof.
  intros a. induction kept as [|seg kept IH]; intro H; [reflexivity|].
  cbn [rev]. rewrite resolve_app.
  rewrite (IH (resolved_stack_below a seg kept H)), rev_involutive.
  cbn [resolved_stack] in H. destruct H as [(Hne & Hd & _) H].
  destruct seg as [|c seg]; [contradiction|].
  cbn [Path.resolve]. rewrite Hd.
  destruct (Path.is_dotdot (c :: seg)) eqn:Edd; [|reflexivity].
  destruct H as [-> H].
  destruct kept as [|top below]; [reflexivity|].
  inversion H as [|? ? Ht _]; subst. rewrite Ht. reflexivity.
Qed.

Lemma join_segments_kept_first : forall segs,
  segs <> [] -> Forall kept_segment segs ->
  exists c l, Path.join_segments segs = c :: l /\ Ascii.eqb c slash = false.
Proof.
  intros [|seg segs] Hne H; [contradiction|].
  inversion H as [|? ? (Hn & _ & Hseg) _]; subst.
  destruct seg as [|c seg]; [contradiction|].
  inversion Hseg; subst.
  destruct segs; cbn [Path.join_segments app]; eauto.
Qed.

Lemma components_kept : forall segs,
  Forall kept_segment segs ->
  filter (fun seg : list ascii => negb (Nat.eqb (List.length seg) 0) &&
                     negb (Path.is_dot seg)) segs = segs.
Proof.
  induction segs as [|seg segs IH]; intro H; [reflexivity|].
  inversion H as [|? ? (Hne & Hd & _) Hsegs]; subst.
  cbn [filter]. rewrite Hd.
  destruct seg as [|c seg]; [contradiction|].
  cbn [List.length Nat.eqb negb andb]. f_equal. apply IH. assumption.
Qed.

(** The components of a normalised path are the segments the walk
    keeps. *)
Lemma components_normalize : forall p,
  Path.components (Path.normalize p) =
  Path.resolve (negb (startsWith slash p)) (Path.split p) [].
Proof.
  intros p. destruct p as [|c0 p0]; [reflexivity|].
  set (p := c0 :: p0).
  assert (Hp : p <> []) by discriminate.
  rewrite (normalize_nonempty p Hp). unfold Path.normalizeString.
  set (a := negb (startsWith slash p)).
  pose proof (resolve_keeps_stack a (Path.split p) []
                (split_noslash_all p) I) as Hstack.
  apply resolved_stack_kept in Hstack. apply Forall_rev in Hstack.
  rewrite rev_involutive in Hstack.
  destruct (Path.resolve a (Path.split p) []) as [|seg segs] eqn:Hsegs.
  - cbn [Path.join_segments].
    destruct (startsWith slash p); [reflexivity|].
    destruct (endsWith slash p); reflexivity.
  - assert (Hne : seg :: segs <> []) by discriminate.
    destruct (join_segments_kept_first _ Hne Hstack) as (c & l & Hf & Hc).
    rewrite Hf. rewrite <- Hf. cbv zeta.
    assert (Hbody : Path.components
                      (if endsWith slash p
                       then Path.join_segments (seg :: segs) ++ [slash]
                       else Path.join_segments (seg :: segs)) = seg :: segs).
    { unfold Path.components. destruct (endsWith slash p).
      - rewrite split_app_slash, (split_join_kept _ Hne Hstack).
        cbn [Path.split]. rewrite filter_app.
        etransitivity; [|apply app_nil_r].
        apply f_equal2; [apply components_kept; assumption | reflexivity].
      - rewrite (split_join_kept _ Hne Hstack). apply components_kept.
        assumption. }
    destruct (startsWith slash p); [|exact Hbody].
    unfold Path.components in *. cbn [Path.split].
    change (Ascii.eqb slash slash) with true. cbv iota.
    cbn [filter List.length Nat.eqb negb andb]. exact Hbody.
Qed.

Lemma segments_prefix_app : forall a b,
  Path.segments_prefix a (a ++ b) = true.
Proof.
  induction a as [|x a IH]; intro b; [reflexivity|].
  cbn [app Path.segments_prefix]. rewrite text_eqb_refl, IH. reflexivity.
Qed.

End Segments.

(** ** Joining a base with a clean relative path *)

Section JoinBase.
Import JsString RegExp JsValue Sanitizer.

Lemma clean_kept : forall seg, clean_segment seg -> kept_segment seg.
Proof.
  intros seg (Hne & Hd & _ & Hsep). repeat split; try assumption.
  apply Forall_impl with (2 := Hsep).
  intros c Hc. apply no_separator_not_slash. exact Hc.
Qed.

Lemma clean_all_kept : forall segs,
  Forall clean_segment segs -> Forall kept_segment segs.
Proof.
  intros segs H. apply Forall_impl with (2 := H). exact clean_kept.
Qed.

Lemma startsWith_normalize : forall p,
  startsWith slash (Path.normalize p) = startsWith slash p.
Proof.
  intros p. destruct p as [|c0 p0]; [reflexivity|].
  set (p := c0 :: p0).
  assert (Hp : p <> []) by discriminate.
  rewrite (normalize_nonempty p Hp). unfold Path.normalizeString.
  set (a := negb (startsWith slash p)).
  pose proof (resolve_keeps_stack a (Path.split p) []
                (split_noslash_all p) I) as Hstack.
  apply resolved_stack_kept in Hstack. apply Forall_rev in Hstack.
  rewrite rev_involutive in Hstack.
  destruct (Path.resolve a (Path.split p) []) as [|seg segs] eqn:Hsegs.
  - cbn [Path.join_segments].
    destruct (startsWith slash p); [reflexivity|].
    destruct (endsWith slash p); reflexivity.
  - assert (Hne : seg :: segs <> []) by discriminate.
    destruct (join_segments_kept_first _ Hne Hstack) as (c & l & Hf & Hc).
    rewrite Hf. cbv zeta.
    destruct (startsWith slash p); [reflexivity|].
    destruct (endsWith slash p); cbn [app startsWith]; exact Hc.
Qed.

(** Normalising twice names the same components as normalising once. *)
Lemma components_normalize_twice : forall p,
  Path.components (Path.normalize (Path.normalize p)) =
  Path.components (Path.normalize p).
Proof.
  intro p.
  rewrite (components_normalize (Path.normalize p)), startsWith_normalize.
  set (a := negb (startsWith slash p)).
  rewrite <- resolve_components.
  change (filter _ (Path.split (Path.normalize p)))
    with (Path.components (Path.normalize p)).
  rewrite components_normalize. fold a.
  pose proof (resolve_keeps_stack a (Path.split p) []
                (split_noslash_all p) I) as Hstack.
  apply resolve_fixed in Hstack. rewrite rev_involutive in Hstack.
  exact Hstack.
Qed.

(** [path.join(base, out)] for [out] either [.] or clean segments joined
    by [/]: the components of the base, then the segments of [out]. *)
Lemma join_base_components : forall base segs out,
  Forall clean_segment segs ->
  out = match segs with
        | [] => [dot]
        | _ :: _ => Path.join_segments segs
        end ->
  (exists Y, Path.join [base; out] = Path.normalize Y) /\
  Path.components (Path.join [base; out]) =
  Path.components (Path.normalize base) ++ segs /\
  Path.components out = segs.
Proof.
  intros base segs out Hclean Heq.
  assert (Hout : exists c l, out = c :: l /\ Ascii.eqb c slash = false).
  { subst out. destruct segs as [|seg segs]; [exists dot, []; split; reflexivity|].
    destruct (join_segments_first (seg :: segs)) as (c & l & Hf & Hc);
      [discriminate | assumption |].
    exists c, l. split; [assumption | apply no_separator_not_slash; assumption]. }
  destruct Hout as (c & l & Hf & Hc).
  assert (Hsplit : forall a kept,
            Path.resolve a (Path.split out) kept = rev kept ++ segs).
  { intros a kept. subst out. destruct segs as [|seg segs].
    - cbn. rewrite app_nil_r. reflexivity.
    - rewrite split_join_segments by (assumption || discriminate).
      apply resolve_clean. assumption. }
  assert (Hcomp : Path.components out = segs).
  { subst out. destruct segs as [|seg segs]; [reflexivity|].
    unfold Path.components.
    rewrite split_join_segments by (assumption || discriminate).
    apply components_kept. apply clean_all_kept. assumption. }
  destruct base as [|b0 base0].
  - assert (Hj : Path.join [[]; out] = Path.normalize out).
    { unfold Path.join. rewrite Hf. reflexivity. }
    split; [exists out; exact Hj|]. split; [|exact Hcomp].
    rewrite Hj, components_normalize, Hsplit.
    reflexivity.
  - assert (Hj : Path.join [b0 :: base0; out] =
                 Path.normalize ((b0 :: base0) ++ slash :: out)).
    { unfold Path.join. rewrite Hf. reflexivity. }
    split; [eexists; exact Hj|]. split; [|exact Hcomp].
    rewrite Hj, !components_normalize, split_app_slash, resolve_app, Hsplit.
    rewrite rev_involutive. reflexivity.
Qed.

End JoinBase.

(** X4.  When the text of the path holds none of the disallowed
    characters, joining any base with the string returned under the
    default options gives a path lexically inside the base: its
    components are the components of the normalised base followed by the
    segments of the returned string. *)
Theorem X4_allowed_input_joined_path_stays_inside_base : forall base p s,
  coerce p = inr s ->
  allowed_text (of_string s) = true ->
  exists N out,
    (forall fuel, N <= fuel -> result (sanitize fuel p VUndefined) = Ret out) /\
    Path.inside base (Path.join [base; of_string out]) = true /\
    Path.components (Path.join [base; of_string out]) =
    Path.components (Path.normalize base) ++ Path.components (of_string out).
Proof.
  intros base p s Hco Hs.
  destruct (default_call_returns p s Hco) as (N & r & Hr & Hcall).
  exists N, (to_string r). split; [exact Hcall|].
  rewrite of_to_string.
  destruct (allowed_input_text _ _ _ Hs Hr) as (_ & segs & Hclean & Heq).
  destruct (join_base_components base segs r Hclean Heq) as ((Y & HY) & Hc & Hout).
  unfold text in *. split.
  - unfold Path.inside. rewrite HY, components_normalize_twice, <- HY, Hc.
    apply segments_prefix_app.
  - rewrite Hc, Hout. reflexivity.
Qed.

Lemma X4_allowed_input_joined_path_stays_inside_base_witness :
  exists N out,
    (forall fuel, N <= fuel ->
       result (sanitize fuel (VString "../../etc/passwd"%string) VUndefined)
         = Ret out) /\
    Path.inside (of_string "/var/app-dir/"%string)
      (Path.join [of_string "/var/app-dir/"%string; of_string out]) = true /\
    Path.components (Path.join [of_string "/var/app-dir/"%string; of_string out]) =
    Path.components (Path.normalize (of_string "/var/app-dir/"%string)) ++
    Path.components (of_string out).
Proof.
  apply (X4_allowed_input_joined_path_stays_inside_base
           (of_string "/var/app-dir/"%string)
           (VString "../../etc/passwd"%string) "../../etc/passwd"%string);
    reflexivity.
Defined.

(** ** Safe relative paths are left as they are *)

Section FixedPoints.
Import JsString RegExp JsValue Sanitizer.

(** Joining what was split gives the text back. *)
Lemma join_split : forall s, Path.join_segments (Path.split s) = s.
Proof.
  induction s as [|c s IH]; [reflexivity|].
  cbn [Path.split]. pose proof (split_not_nil s) as Hne.
  destruct (Ascii.eqb c slash) eqn:E.
  - apply Ascii.eqb_eq in E. subst c.
    destruct (Path.split s) as [|seg segs]; [contradiction|].
    rewrite join_segments_cons, IH. reflexivity.
  - destruct (Path.split s) as [|seg segs]; [contradiction|].
    destruct segs as [|seg' segs'].
    + cbn [Path.join_segments] in *. rewrite IH. reflexivity.
    + rewrite join_segments_cons in *. cbn [app]. rewrite IH. reflexivity.
Qed.

Lemma slashed_join : forall segs,
  segs <> [] -> slash :: Path.join_segments segs = slashed segs.
Proof.
  induction segs as [|seg segs IH]; intro Hne; [contradiction|].
  destruct segs as [|seg' segs'].
  - cbn [Path.join_segments slashed flat_map]. rewrite app_nil_r. reflexivity.
  - rewrite join_segments_cons.
    change (slashed (seg :: seg' :: segs'))
      with ((slash :: seg) ++ slashed (seg' :: segs')).
    rewrite <- IH by discriminate. reflexivity.
Qed.

(** *** The decode pass on a text without percent signs *)

Lemma chr_start_never_matches : forall c0 r s,
  Forall (fun x => Ascii.eqb x c0 = false) s ->
  never_matches (Seq (Chr c0) r) s.
Proof.
  intros c0 r. induction s as [|x s IH]; intro Hs; cbn [never_matches].
  - split; [reflexivity | exact I].
  - inversion Hs as [|? ? Hx Hs']; subst. split; [|exact (IH Hs')].
    intro bol. unfold match_here. cbn [rmatch]. rewrite Hx. reflexivity.
Qed.

Lemma decode_pass_without_percent : forall s,
  Forall (fun x => Ascii.eqb x "%"%char = false) s ->
  decode_pass default_decode s = s.
Proof.
  intros s Hs. unfold decode_pass, default_decode, replace.
  cbn [fold_left regex replacement global pattern literal of_string
       list_ascii_of_string].
  assert (Hid : forall r by_,
            replace_global (Seq (Chr "%"%char) r) by_ true 0 s = s).
  { intros r by_. apply replace_global_never_matches.
    apply chr_start_never_matches. assumption. }
  rewrite !Hid. reflexivity.
Qed.

(** *** The replacements on a text of clean segments *)

Lemma first_separator_keeps : forall c l,
  no_separator c ->
  replace first_separator [slash] (c :: l) = slash :: c :: l.
Proof.
  intros c l Hc. unfold replace, first_separator.
  cbn [global pattern replace_first]. unfold match_here. cbn [rmatch].
  rewrite Hc. reflexivity.
Qed.

Lemma parent_directory_at_other : forall bol c rest,
  no_separator c ->
  match_here (pattern default_parentDirectoryRegEx) bol (c :: rest) = None.
Proof.
  intros bol c rest Hc. unfold match_here, default_parentDirectoryRegEx.
  cbn [pattern rmatch]. rewrite Hc. reflexivity.
Qed.

Lemma parent_directory_at_slash : forall bol seg tail,
  clean_segment seg ->
  match_here (pattern default_parentDirectoryRegEx) bol (slash :: seg ++ tail)
    = None.
Proof.
  intros bol seg tail (Hne & Hd & Hdd & Hsep).
  unfold match_here, default_parentDirectoryRegEx. cbn [pattern rmatch].
  change (in_class slash separators) with true. cbv iota.
  destruct seg as [|d1 seg]; [contradiction|]. cbn [app].
  destruct (Ascii.eqb d1 dot) eqn:E1; [|reflexivity].
  apply Ascii.eqb_eq in E1. subst d1.
  destruct seg as [|d2 seg]; [discriminate Hd|]. cbn [app].
  destruct (Ascii.eqb d2 dot) eqn:E2; [|reflexivity].
  apply Ascii.eqb_eq in E2. subst d2.
  destruct seg as [|d3 seg]; [discriminate Hdd|]. cbn [app].
  inversion Hsep as [|? ? _ Hsep1]; subst.
  inversion Hsep1 as [|? ? _ Hsep2]; subst.
  inversion Hsep2 as [|? ? H3 _]; subst.
  unfold no_separator in H3. rewrite H3. reflexivity.
Qed.

Lemma never_matches_after_others : forall pre tail,
  Forall no_separator pre ->
  never_matches (pattern default_parentDirectoryRegEx) tail ->
  never_matches (pattern default_parentDirectoryRegEx) (pre ++ tail).
Proof.
  induction pre as [|c pre IH]; intros tail Hpre Htail; [exact Htail|].
  inversion Hpre; subst. cbn [app never_matches].
  split; [|apply IH; assumption].
  intro bol. apply parent_directory_at_other. assumption.
Qed.

Lemma parent_directory_never_matches_clean : forall segs,
  Forall clean_segment segs ->
  never_matches (pattern default_parentDirectoryRegEx) (slashed segs).
Proof.
  induction segs as [|seg segs IH]; intro H.
  - split; [reflexivity | exact I].
  - inversion H as [|? ? Hseg Hsegs]; subst.
    change (slashed (seg :: segs)) with (slash :: seg ++ slashed segs).
    cbn [never_matches]. split.
    + intro bol. apply parent_directory_at_slash. assumption.
    + apply never_matches_after_others; [|apply IH; assumption].
      destruct Hseg as (_ & _ & _ & Hsep). exact Hsep.
Qed.

Lemma star_stops : forall cs k n bol c t,
  in_class c cs = false ->
  star_iter (rmatch (Class cs)) k n bol (c :: t) = k bol (c :: t).
Proof.
  intros cs k n bol c t Hc. destruct n as [|n]; [reflexivity|].
  cbn [star_iter rmatch]. rewrite Hc. reflexivity.
Qed.

Lemma separator_run_after_others : forall pre tail bol,
  Forall no_separator pre ->
  (forall b, replace_global (pattern separator_run) [slash] b 0 tail = tail) ->
  replace_global (pattern separator_run) [slash] bol 0 (pre ++ tail)
    = pre ++ tail.
Proof.
  induction pre as [|c pre IH]; intros tail bol Hpre Htail; [apply Htail|].
  inversion Hpre as [|? ? Hc Hpre']; subst.
  cbn [app replace_global]. rewrite separator_run_match.
  unfold no_separator in Hc. rewrite Hc. f_equal. apply IH; assumption.
Qed.

Lemma separator_run_keeps_clean : forall segs bol,
  Forall clean_segment segs ->
  replace_global (pattern separator_run) [slash] bol 0 (slashed segs)
    = slashed segs.
Proof.
  induction segs as [|seg segs IH]; intros bol H; [reflexivity|].
  inversion H as [|? ? (Hne & _ & _ & Hsep) Hsegs]; subst.
  change (slashed (seg :: segs)) with (slash :: seg ++ slashed segs).
  destruct seg as [|c l]; [contradiction|].
  inversion Hsep as [|? ? Hc Hl]; subst.
  cbn [replace_global]. rewrite separator_run_match.
  change (in_class slash separators) with true. cbv iota.
  cbn [app]. rewrite (star_stops _ _ _ _ _ _ Hc).
  replace (List.length (slash :: c :: l ++ slashed segs)
           - List.length (c :: l ++ slashed segs)) with 1
    by (cbn [List.length]; lia).
  cbn [app]. f_equal.
  apply (separator_run_after_others (c :: l)); [assumption|].
  intro b. apply IH. assumption.
Qed.

(** *** The pipeline on a text of clean segments *)

Lemma normalize_slashed : forall segs,
  segs <> [] -> Forall clean_segment segs ->
  Path.normalize (slashed segs) = slashed segs.
Proof.
  intros segs Hne Hclean. rewrite <- (slashed_join segs Hne).
  rewrite normalize_nonempty by discriminate.
  change (startsWith slash (slash :: Path.join_segments segs)) with true.
  cbn [negb]. unfold Path.normalizeString. cbn [Path.split].
  change (Ascii.eqb slash slash) with true. cbv iota.
  rewrite (split_join_segments segs Hne Hclean). cbn [Path.resolve].
  rewrite (resolve_clean false segs [] Hclean). cbn [rev app].
  destruct (join_segments_last segs Hne Hclean) as (l & c & Hl & Hc).
  destruct (join_segments_first segs Hne Hclean) as (c0 & l0 & Hf & _).
  assert (Hends : endsWith slash (slash :: Path.join_segments segs) = false).
  { rewrite Hl. change (slash :: l ++ [c]) with ((slash :: l) ++ [c]).
    unfold endsWith. rewrite rev_unit. apply no_separator_not_slash. exact Hc. }
  rewrite Hends, Hf. reflexivity.
Qed.

Lemma trimmed_slashed : forall fuel segs,
  segs <> [] -> Forall clean_segment segs ->
  trimmed (S fuel) (slashed segs) = Ret (Path.join_segments segs).
Proof.
  intros fuel segs Hne Hclean. rewrite <- (slashed_join segs Hne).
  destruct (join_segments_last segs Hne Hclean) as (l & c & Hl & Hc).
  destruct (join_segments_first segs Hne Hclean) as (c0 & l0 & Hf & Hc0).
  unfold trimmed.
  rewrite while_loop_done.
  - cbn [bind while_loop].
    change (starts_with_separator (slash :: Path.join_segments segs)) with true.
    cbv iota. unfold slice_from_1. cbn [tl].
    apply while_loop_done. rewrite Hf, starts_with_separator_first. exact Hc0.
  - rewrite Hl. change (slash :: l ++ [c]) with ((slash :: l) ++ [c]).
    rewrite ends_with_separator_last. exact Hc.
Qed.

Lemma plain_chars : forall s,
  plain_text s = true ->
  allowed_text s = true /\ Forall (fun x => Ascii.eqb x "%"%char = false) s.
Proof.
  induction s as [|c s IH]; intro H; [split; [reflexivity | constructor]|].
  cbn [plain_text forallb] in H. apply andb_prop in H. destruct H as [Hc Hs].
  destruct (IH Hs) as [Ha Hp]. unfold plain_char in Hc.
  apply andb_prop in Hc. destruct Hc as [Hc1 Hc2].
  split.
  - cbn [allowed_text forallb]. rewrite Hc1. exact Ha.
  - constructor; [|exact Hp].
    destruct (Ascii.eqb c "%"%char); [discriminate | reflexivity].
Qed.

(** The whole pipeline, under the default options, on clean segments
    joined by [/] and written with plain characters. *)
Lemma sanitize_text_fixed : forall fuel segs,
  segs <> [] -> Forall clean_segment segs ->
  plain_text (Path.join_segments segs) = true ->
  sanitize_text (S fuel) default_decode default_parentDirectoryRegEx
                default_notAllowedRegEx (Path.join_segments segs)
    = Ret (Path.join_segments segs).
Proof.
  intros fuel segs Hne Hclean Hplain.
  destruct (plain_chars _ Hplain) as [Hallowed Hpercent].
  destruct (join_segments_first segs Hne Hclean) as (c0 & l0 & Hf & Hc0).
  assert (Hun : untrimmed default_decode default_parentDirectoryRegEx
                  (Path.join_segments segs) = slashed segs).
  { unfold untrimmed.
    rewrite (decode_pass_without_percent _ Hpercent).
    rewrite Hf, (first_separator_keeps _ _ Hc0), <- Hf.
    rewrite (slashed_join segs Hne).
    unfold replace. cbn [global default_parentDirectoryRegEx separator_run].
    rewrite (replace_global_never_matches _ _ _ _
               (parent_directory_never_matches_clean segs Hclean)).
    change (Plus (Class separators)) with (pattern separator_run).
    rewrite (separator_run_keeps_clean segs true Hclean).
    apply normalize_slashed; assumption. }
  unfold sanitize_text. rewrite Hun, (trimmed_slashed fuel segs Hne Hclean).
  cbn [bind]. rewrite (join_clean_segments segs Hne Hclean).
  rewrite default_filter, (filter_allowed_text _ Hallowed). reflexivity.
Qed.

Lemma safe_relative_segments : forall p,
  safe_relative p = true ->
  plain_text p = true /\
  exists segs, segs <> [] /\ Forall clean_segment segs /\
               p = Path.join_segments segs.
Proof.
  intros p H. unfold safe_relative in H. apply andb_prop in H.
  destruct H as [Hplain Hsegs]. split; [exact Hplain|].
  exists (Path.split p). split; [apply split_not_nil|]. split.
  - apply Forall_forall. intros seg Hin.
    rewrite forallb_forall in Hsegs. apply clean_segment_b_spec.
    exact (Hsegs seg Hin).
  - symmetry. apply join_split.
Qed.

End FixedPoints.

(** X5.  A relative path already in its final form (plain characters, no
    percent sign, every segment non-empty, neither [.] nor [..], no
    backslash) is returned unchanged under the default options, for every
    budget of at least one iteration. *)
Theorem X5_safe_relative_path_is_unchanged : forall fuel s,
  safe_relative (of_string s) = true ->
  result (sanitize (S fuel) (VString s) VUndefined) = Ret s.
Proof.
  intros fuel s H.
  destruct (safe_relative_segments _ H) as (Hplain & segs & Hne & Hclean & Heq).
  rewrite (sanitize_falsy (S fuel) (VString s) VUndefined eq_refl).
  cbn [coerce result]. unfold text in *. rewrite Heq in Hplain |- *.
  rewrite (sanitize_text_fixed fuel segs Hne Hclean Hplain). cbn [bind].
  rewrite <- Heq. unfold to_string, of_string.
  rewrite string_of_list_ascii_of_string. reflexivity.
Qed.

Lemma X5_safe_relative_path_is_unchanged_witness :
  result (sanitize 1 (VString "safe/path/file.txt"%string) VUndefined)
    = Ret "safe/path/file.txt"%string.
Proof.
  apply (X5_safe_relative_path_is_unchanged 0 "safe/path/file.txt"%string).
  reflexivity.
Defined.

(** ** A second application *)

Section SecondApplication.
Import JsString RegExp JsValue Sanitizer.

(** The pipeline writes plain characters when it reads plain characters. *)
Lemma plain_input_text : forall fuel s r,
  plain_text s = true ->
  sanitize_text fuel default_decode default_parentDirectoryRegEx
                default_notAllowedRegEx s = Ret r ->
  plain_text r = true.
Proof.
  intros fuel s r Hs H. unfold sanitize_text in H.
  destruct (trimmed fuel (untrimmed default_decode default_parentDirectoryRegEx s))
    as [t| |] eqn:Ht; cbn [bind] in H; try discriminate.
  inversion H. apply forallb_Forall_text.
  apply replace_chars; [constructor|].
  apply join_chars; try reflexivity.
  eapply trimmed_chars; [|exact Ht].
  apply untrimmed_chars; try reflexivity.
  - apply default_decode_chars; reflexivity.
  - apply forallb_Forall_text. exact Hs.
Qed.

End SecondApplication.

(** X6.  On a path whose text holds neither a disallowed character nor a
    percent sign, the call under the default options is idempotent: the
    string it returns is returned unchanged when it is passed again. *)
Theorem X6_idempotent_on_plain_input : forall p s,
  coerce p = inr s ->
  plain_text (of_string s) = true ->
  exists N out,
    (forall fuel, N <= fuel -> result (sanitize fuel p VUndefined) = Ret out) /\
    (forall fuel, result (sanitize (S fuel) (VString out) VUndefined) = Ret out).
Proof.
  intros p s Hco Hs.
  destruct (default_call_returns p s Hco) as (N & r & Hr & Hcall).
  exists N, (to_string r). split; [exact Hcall|].
  intro fuel.
  pose proof (plain_input_text _ _ _ Hs Hr) as Hplain.
  destruct (plain_chars _ Hs) as [Hallowed _].
  destruct (allowed_input_text _ _ _ Hallowed Hr) as (_ & segs & Hclean & Heq).
  rewrite (sanitize_falsy (S fuel) (VString (to_string r)) VUndefined eq_refl).
  cbn [coerce result]. rewrite of_to_string.
  destruct segs as [|seg segs].
  - unfold text in *. rewrite Heq. destruct fuel; reflexivity.
  - assert (Hne : seg :: segs <> []) by discriminate.
    unfold text in *. rewrite Heq in Hplain |- *.
    rewrite (sanitize_text_fixed fuel _ Hne Hclean Hplain). reflexivity.
Qed.

Lemma X6_idempotent_on_plain_input_witness :
  exists N out,
    (forall fuel, N <= fuel ->
       result (sanitize fuel (VString "\\srv\.\a/../b//c\"%string) VUndefined)
         = Ret out) /\
    (forall fuel, result (sanitize (S fuel) (VString out) VUndefined) = Ret out).
Proof.
  apply (X6_idempotent_on_plain_input
           (VString "\\srv\.\a/../b//c\"%string) "\\srv\.\a/../b//c\"%string);
    reflexivity.
Defined.

(** ** The options argument *)

(** X7.  A falsy options argument ([undefined], [null], [false], [0],
    [NaN], the empty string) gives the result of a call without options
    and is left as it was; so does, for the result, the empty object. *)
Theorem X7_falsy_or_empty_options_mean_the_defaults : forall fuel p,
  (forall o, truthy o = false ->
     result (sanitize fuel p o) = result (sanitize fuel p VUndefined) /\
     options_after (sanitize fuel p o) = o) /\
  result (sanitize fuel p (VObject (mkOptions None None None)))
    = result (sanitize fuel p VUndefined).
Proof.
  intros fuel p. split.
  - intros o H.
    rewrite (sanitize_falsy fuel p o H),
            (sanitize_falsy fuel p VUndefined eq_refl).
    split; reflexivity.
  - rewrite sanitize_object, (sanitize_falsy fuel p VUndefined eq_refl).
    reflexivity.
Qed.

Lemma X7_falsy_or_empty_options_mean_the_defaults_witness :
  result (sanitize 8 (VString "a/../b"%string) zero)
    = result (sanitize 8 (VString "a/../b"%string) VUndefined) /\
  options_after (sanitize 8 (VString "a/../b"%string) zero) = zero.
Proof.
  apply (proj1 (X7_falsy_or_empty_options_mean_the_defaults
                  8 (VString "a/../b"%string)) zero).
  reflexivity.
Defined.

Section OptionsAfter.
Import JsString RegExp JsValue Sanitizer.

(** Running the defaulting lines a second time writes nothing. *)
Lemma assign_defaults_twice : forall x,
  assign_defaults (assign_defaults x) = assign_defaults x.
Proof.
  intros [f [|v1|d] [|v2|pd] [|v3|na] [| |] c]; reflexivity.
Qed.

(** The options argument after a call: an object after the defaulting
    lines, anything else as it was. *)
Lemma options_after_call : forall fuel p o,
  options_after (sanitize fuel p o) =
  match o with
  | VObj x => if callable x then o else VObj (assign_defaults x)
  | _ => o
  end.
Proof.
  intros fuel p o. destruct (rejects o) eqn:Hrej.
  - rewrite (sanitize_rejected fuel p o Hrej).
    destruct o; try reflexivity.
    cbn in Hrej. destruct (callable x); [reflexivity|discriminate Hrej].
  - destruct (accepted_options o Hrej) as [Hf|(x & -> & Hx)].
    + rewrite (sanitize_falsy fuel p o Hf).
      destruct o; try reflexivity. discriminate Hf.
    + rewrite (sanitize_obj fuel p x Hx), Hx. reflexivity.
Qed.

Lemma default_field_keeps {A : Type} : forall level (f : field A) default a,
  f = Holds a -> default_field level f default = Holds a.
Proof.
  intros level f default a ->. reflexivity.
Qed.

End OptionsAfter.

(** X8.  A call never changes a field of the options object that holds a
    truthy value, nor whether the object takes writes or how it converts
    to text; and whatever the options argument is, a later call given
    the argument as the first call left it writes nothing more and has
    the result it would have with the argument as it was before. *)
Theorem X8_options_object_after_a_call : forall fuel p o,
  (forall fuel' p',
     options_after (sanitize fuel' p' (options_after (sanitize fuel p o)))
       = options_after (sanitize fuel p o)) /\
  (forall fuel' p',
     result (sanitize fuel' p' (options_after (sanitize fuel p o)))
       = result (sanitize fuel' p' o)) /\
  (forall x, o = VObj x ->
     exists x',
       options_after (sanitize fuel p o) = VObj x' /\
       (forall d, decode_field x = Holds d -> decode_field x' = Holds d) /\
       (forall rx, parentDirectoryRegEx_field x = Holds rx ->
                   parentDirectoryRegEx_field x' = Holds rx) /\
       (forall rx, notAllowedRegEx_field x = Holds rx ->
                   notAllowedRegEx_field x' = Holds rx) /\
       integrity_level x' = integrity_level x /\
       conversion_to_text x' = conversion_to_text x).
Proof.
  intros fuel p o. rewrite (options_after_call fuel p o).
  split; [|split].
  - intros fuel' p'. rewrite options_after_call.
    destruct o; try reflexivity.
    destruct (callable x) eqn:Hx; cbn [callable assign_defaults]; rewrite Hx;
      [reflexivity|].
    rewrite assign_defaults_twice. reflexivity.
  - intros fuel' p'. destruct o; try reflexivity.
    destruct (callable x) eqn:Hx; [reflexivity|].
    rewrite (sanitize_obj fuel' p' x Hx),
            (sanitize_obj fuel' p' (assign_defaults x) Hx),
            assign_defaults_twice.
    reflexivity.
  - intros x ->. destruct (callable x).
    + exists x. repeat split; intros; assumption.
    + exists (assign_defaults x). split; [reflexivity|].
      repeat split; intros; cbn [assign_defaults decode_field
        parentDirectoryRegEx_field notAllowedRegEx_field];
        apply default_field_keeps; assumption.
Qed.

Lemma X8_options_object_after_a_call_witness :
  exists x',
    options_after (sanitize 4 (VString "a"%string)
                     (VObj (mkObject false (Holds []) (Falsy FNull) Absent
                                     NonExtensible (ConvertsTo "o"%string))))
      = VObj x' /\
    (forall d, Holds [] = Holds d -> decode_field x' = Holds d) /\
    (forall rx, @Falsy regexp FNull = Holds rx ->
                parentDirectoryRegEx_field x' = Holds rx) /\
    (forall rx, @Absent regexp = Holds rx ->
                notAllowedRegEx_field x' = Holds rx) /\
    integrity_level x' = NonExtensible /\
    conversion_to_text x' = ConvertsTo "o"%string.
Proof.
  apply (proj2 (proj2 (X8_options_object_after_a_call
                         4 (VString "a"%string)
                         (VObj (mkObject false (Holds []) (Falsy FNull) Absent
                                         NonExtensible (ConvertsTo "o"%string)))))
               (mkObject false (Holds []) (Falsy FNull) Absent
                         NonExtensible (ConvertsTo "o"%string))).
  reflexivity.
Defined.

(** ** The helper of the tests *)

Section LinuxSlash.
Import JsString RegExp.

Lemma linuxSlash_map : forall s bol,
  replace_global (Chr backslash) [slash] bol 0 s =
  map (fun c => if Ascii.eqb c backslash then slash else c) s.
Proof.
  induction s as [|c s IH]; intro bol; [reflexivity|].
  cbn [replace_global map]. unfold match_here. cbn [rmatch].
  destruct (Ascii.eqb c backslash).
  - replace (List.length (c :: s) - List.length s) with 1
      by (cbn [List.length]; lia).
    cbn [app]. f_equal. apply IH.
  - f_equal. apply IH.
Qed.

End LinuxSlash.

(** X9.  [linuxSlash] turns every backslash into [/] and changes nothing
    else: the result has the length of the argument and no backslash, and
    applying the helper again changes nothing. *)
Theorem X9_linuxSlash_maps_backslashes : forall s,
  linuxSlash s = map (fun c => if Ascii.eqb c backslash then slash else c) s /\
  List.length (linuxSlash s) = List.length s /\
  Forall not_backslash (linuxSlash s) /\
  linuxSlash (linuxSlash s) = linuxSlash s.
Proof.
  assert (Hmap : forall s,
            linuxSlash s =
            map (fun c => if Ascii.eqb c backslash then slash else c) s).
  { intro s. unfold linuxSlash, replace. cbn [global pattern].
    apply linuxSlash_map. }
  assert (Hnb : forall s, Forall not_backslash (linuxSlash s)).
  { intro s. rewrite Hmap. apply Forall_forall. intros c Hc.
    apply in_map_iff in Hc. destruct Hc as (x & <- & _).
    destruct (Ascii.eqb x backslash) eqn:E; [discriminate|].
    intro Hx. subst x. discriminate E. }
  intro s. split; [apply Hmap|]. split; [|split; [apply Hnb|]].
  - rewrite Hmap. apply length_map.
  - rewrite (Hmap (linuxSlash s)).
    pose proof (Hnb s) as H. induction H as [|c l Hc _ IH]; [reflexivity|].
    cbn [map]. rewrite IH.
    destruct (Ascii.eqb c backslash) eqn:E; [|reflexivity].
    apply Ascii.eqb_eq in E. contradiction.
Qed.

(** ** Where the characters of the result come from *)

(** X10.  Under the default options every character of a returned string
    is a character of the text of the path, or [/], or [.]: the call
    writes no other character. *)
Theorem X10_output_characters_come_from_the_input : forall p s,
  coerce p = inr s ->
  exists N out,
    (forall fuel, N <= fuel -> result (sanitize fuel p VUndefined) = Ret out) /\
    Forall (fun c => In c (of_string s) \/ c = slash \/ c = dot) (of_string out).
Proof.
  intros p s Hco.
  destruct (default_call_returns p s Hco) as (N & r & Hr & Hcall).
  exists N, (to_string r). split; [exact Hcall|].
  rewrite of_to_string. unfold sanitize_text in Hr.
  destruct (trimmed N (untrimmed default_decode default_parentDirectoryRegEx
                         (of_string s))) as [t| |] eqn:Ht; cbn [bind] in Hr;
    try discriminate.
  inversion Hr.
  set (Q := fun c => In c (of_string s) \/ c = slash \/ c = dot).
  assert (Hun : Forall Q (untrimmed default_decode default_parentDirectoryRegEx
                            (of_string s))).
  { pose proof (untrimmed_has_no_backslash default_decode
                  default_parentDirectoryRegEx (of_string s)) as Hnb.
    assert (H' : Forall (fun c => Q c \/ c = backslash)
                   (untrimmed default_decode default_parentDirectoryRegEx
                      (of_string s))).
    { apply untrimmed_chars.
      - left. right. left. reflexivity.
      - left. right. right. reflexivity.
      - apply default_decode_chars.
        + left. right. right. reflexivity.
        + left. right. left. reflexivity.
        + right. reflexivity.
      - apply Forall_forall. intros c Hc. left. left. exact Hc. }
    rewrite Forall_forall in *. intros c Hc.
    destruct (H' c Hc) as [HQ|Hb]; [exact HQ|].
    exfalso. exact (Hnb c Hc Hb). }
  apply replace_chars; [constructor|].
  apply join_chars; [right; left; reflexivity | right; right; reflexivity |].
  eapply trimmed_chars; [exact Hun | exact Ht].
Qed.

Lemma X10_output_characters_come_from_the_input_witness :
  exists N out,
    (forall fuel, N <= fuel ->
       result (sanitize fuel five_hundred VUndefined) = Ret out) /\
    Forall (fun c => In c (of_string "500"%string) \/ c = slash \/ c = dot)
           (of_string out).
Proof.
  apply (X10_output_characters_come_from_the_input five_hundred "500"%string).
  reflexivity.
Defined.

(** ** Lengths *)

Section Lengths.
Import JsString RegExp JsValue Sanitizer.

Lemma match_progress_chr : forall c r bol s rest,
  match_here (Seq (Chr c) r) bol s = Some rest ->
  List.length rest < List.length s.
Proof.
  intros c r bol s rest H. unfold match_here in H.
  destruct s as [|x s]; [discriminate H|].
  change (rmatch (Seq (Chr c) r) bol (x :: s) (fun _ t => Some t))
    with (if Ascii.eqb x c
          then rmatch r false s (fun _ t => Some t) else None) in H.
  destruct (Ascii.eqb x c); [|discriminate].
  apply rmatch_suffix in H. destruct H as (_ & n & H). inversion H.
  rewrite length_skipn. cbn [List.length]. lia.
Qed.

Lemma match_progress_class : forall cs r bol s rest,
  match_here (Seq (Class cs) r) bol s = Some rest ->
  List.length rest < List.length s.
Proof.
  intros cs r bol s rest H. unfold match_here in H.
  destruct s as [|x s]; [discriminate H|].
  change (rmatch (Seq (Class cs) r) bol (x :: s) (fun _ t => Some t))
    with (if in_class x cs
          then rmatch r false s (fun _ t => Some t) else None) in H.
  destruct (in_class x cs); [|discriminate].
  apply rmatch_suffix in H. destruct H as (_ & n & H). inversion H.
  rewrite length_skipn. cbn [List.length]. lia.
Qed.

(** Replacing non-empty matches by at most one character does not
    lengthen the text. *)
Lemma replace_global_length : forall r by_,
  (forall bol t rest, match_here r bol t = Some rest ->
     List.length rest < List.length t) ->
  List.length by_ <= 1 ->
  forall s bol skip,
    List.length (replace_global r by_ bol skip s) <= List.length s.
Proof.
  intros r by_ Hprog Hby. induction s as [|c s IH]; intros bol skip;
    cbn [replace_global].
  - destruct skip; [|cbn; lia].
    destruct (match_here r bol []) as [rest|] eqn:E; [|cbn; lia].
    apply Hprog in E. cbn in E. lia.
  - destruct skip as [|n].
    + destruct (match_here r bol (c :: s)) as [rest|] eqn:E.
      * apply Hprog in E.
        destruct (List.length (c :: s) - List.length rest) as [|n] eqn:D.
        -- lia.
        -- rewrite length_app. specialize (IH false n).
           cbn [List.length]. lia.
      * cbn [List.length]. specialize (IH false 0). lia.
    + specialize (IH false n). cbn [List.length]. lia.
Qed.

Lemma decode_pass_length : forall s,
  List.length (decode_pass default_decode s) <= List.length s.
Proof.
  intro s. unfold decode_pass, default_decode, replace.
  cbn [fold_left regex replacement global pattern literal of_string
       list_ascii_of_string].
  assert (H : forall c r by_ t,
            List.length by_ <= 1 ->
            List.length (replace_global (Seq (Chr c) r) by_ true 0 t)
              <= List.length t).
  { intros c r by_ t Hby. apply replace_global_length; [|exact Hby].
    intros bol u rest. apply match_progress_chr. }
  eapply Nat.le_trans; [apply H; cbn; lia|].
  eapply Nat.le_trans; [apply H; cbn; lia|].
  apply H. cbn. lia.
Qed.

Lemma first_separator_length : forall s,
  List.length (replace first_separator [slash] s) <= S (List.length s).
Proof.
  intros [|c s]; [cbn; lia|].
  unfold replace, first_separator. cbn [global pattern replace_first].
  unfold match_here. cbn [rmatch].
  destruct (in_class c separators); cbn [app List.length]; lia.
Qed.

(** *** [path.normalize] does not lengthen an absolute path *)

Lemma slashed_app : forall a b, slashed (a ++ b) = slashed a ++ slashed b.
Proof.
  intros a b. unfold slashed. apply flat_map_app.
Qed.

Lemma length_slashed_rev : forall l,
  List.length (slashed (rev l)) = List.length (slashed l).
Proof.
  induction l as [|seg l IH]; [reflexivity|].
  cbn [rev]. rewrite slashed_app, length_app, IH.
  change (slashed (seg :: l)) with ((slash :: seg) ++ slashed l).
  rewrite length_app. cbn [slashed flat_map]. rewrite app_nil_r. lia.
Qed.

Lemma slashed_split : forall s, slashed (Path.split s) = slash :: s.
Proof.
  intro s. rewrite <- (slashed_join _ (split_not_nil s)), join_split.
  reflexivity.
Qed.

Lemma resolve_length : forall a segs kept,
  List.length (slashed (Path.resolve a segs kept))
    <= List.length (slashed segs) + List.length (slashed kept).
Proof.
  intros a segs. induction segs as [|seg segs IH]; intro kept;
    cbn [Path.resolve].
  - rewrite length_slashed_rev. cbn. lia.
  - change (slashed (seg :: segs)) with ((slash :: seg) ++ slashed segs).
    rewrite length_app.
    assert (Hpush : List.length (slashed (seg :: kept))
                    = List.length (slash :: seg) + List.length (slashed kept)).
    { change (slashed (seg :: kept)) with ((slash :: seg) ++ slashed kept).
      apply length_app. }
    destruct seg as [|c seg]; [specialize (IH kept); lia|].
    destruct (Path.is_dot (c :: seg)); [specialize (IH kept); lia|].
    destruct (Path.is_dotdot (c :: seg)).
    + destruct kept as [|top below].
      * destruct a; [specialize (IH [c :: seg]) | specialize (IH [])];
          unfold text in *; lia.
      * assert (Hpop : List.length (slashed below)
                       <= List.length (slashed (top :: below))).
        { change (slashed (top :: below)) with ((slash :: top) ++ slashed below).
          rewrite length_app. lia. }
        destruct (Path.is_dotdot top).
        -- destruct a.
           ++ specialize (IH ((c :: seg) :: top :: below)).
              change (slashed ((c :: seg) :: top :: below))
                with ((slash :: c :: seg) ++ slashed (top :: below)) in IH.
              rewrite length_app in IH. unfold text in *. lia.
           ++ specialize (IH (top :: below)). unfold text in *. lia.
        -- specialize (IH below). unfold text in *. lia.
    + specialize (IH ((c :: seg) :: kept)). unfold text in *. lia.
Qed.

Lemma endsWith_cons : forall c x s,
  s <> [] -> endsWith c (x :: s) = endsWith c s.
Proof.
  intros c x s Hne. destruct (exists_last Hne) as (s' & y & ->).
  unfold endsWith. cbn [rev]. rewrite rev_unit. reflexivity.
Qed.

Lemma endsWith_last : forall s,
  s <> [] -> endsWith slash s = true -> exists s', s = s' ++ [slash].
Proof.
  intros s Hne H. destruct (exists_last Hne) as (s' & c & ->).
  unfold endsWith in H. rewrite rev_unit in H.
  apply Ascii.eqb_eq in H. subst c. eauto.
Qed.

Lemma normalize_absolute_length : forall s,
  List.length (Path.normalize (slash :: s)) <= S (List.length s).
Proof.
  intro s. rewrite normalize_nonempty by discriminate.
  change (startsWith slash (slash :: s)) with true. cbn [negb].
  unfold Path.normalizeString. cbn [Path.split].
  change (Ascii.eqb slash slash) with true. cbv iota. cbn [Path.resolve].
  pose proof (resolve_keeps_stack false (Path.split s) []
                (split_noslash_all s) I) as Hstack.
  apply resolved_stack_kept in Hstack. apply Forall_rev in Hstack.
  rewrite rev_involutive in Hstack.
  pose proof (resolve_length false (Path.split s) []) as Hlen.
  rewrite slashed_split in Hlen. cbn [slashed flat_map List.length] in Hlen.
  destruct (Path.resolve false (Path.split s) []) as [|seg segs] eqn:Hsegs.
  - cbn. lia.
  - assert (Hne : seg :: segs <> []) by discriminate.
    destruct (join_segments_kept_first _ Hne Hstack) as (c & l & Hf & _).
    rewrite Hf. rewrite <- Hf. cbv zeta.
    rewrite <- (slashed_join _ Hne) in Hlen.
    destruct (endsWith slash (slash :: s)) eqn:Hends.
    + destruct s as [|c1 s1]; [discriminate Hsegs|].
      assert (Htail : endsWith slash (c1 :: s1) = true).
      { rewrite <- Hends. symmetry. apply endsWith_cons. discriminate. }
      destruct (endsWith_last (c1 :: s1) ltac:(discriminate) Htail) as (s' & E).
      rewrite E in Hsegs |- *.
      rewrite split_app_slash, resolve_app in Hsegs. cbn [Path.split] in Hsegs.
      cbn [Path.resolve] in Hsegs. rewrite rev_involutive in Hsegs.
      pose proof (resolve_length false (Path.split s') []) as Hlen'.
      rewrite slashed_split, Hsegs in Hlen'.
      rewrite <- (slashed_join _ Hne) in Hlen'.
      cbn [slashed flat_map List.length] in Hlen'.
      cbn [List.length]. rewrite !length_app. cbn [List.length] in *. lia.
    + cbn [List.length] in *. lia.
Qed.

(** The trimming loops start on a text of at most one character more than
    the input. *)
Lemma untrimmed_length : forall s,
  List.length (untrimmed default_decode default_parentDirectoryRegEx s)
    <= S (List.length s).
Proof.
  intro s. unfold untrimmed.
  pose proof (decode_pass_length s) as H0.
  pose proof (first_separator_length (decode_pass default_decode s)) as H1.
  destruct (first_separator_head (decode_pass default_decode s)) as (s1 & E1).
  rewrite E1 in *.
  assert (H2 : List.length (replace default_parentDirectoryRegEx [slash]
                              (slash :: s1)) <= List.length (slash :: s1)).
  { unfold replace, default_parentDirectoryRegEx. cbn [global pattern].
    apply replace_global_length; [|cbn; lia].
    intros bol t rest. apply match_progress_class. }
  destruct (replace_by_slash_head default_parentDirectoryRegEx s1) as (s2 & E2).
  rewrite E2 in *.
  assert (H3 : List.length (replace separator_run [slash] (slash :: s2))
               <= List.length (slash :: s2)).
  { unfold replace, separator_run, Plus. cbn [global pattern].
    apply replace_global_length; [|cbn; lia].
    intros bol t rest. apply match_progress_class. }
  destruct (replace_by_slash_head separator_run s2) as (s3 & E3).
  rewrite E3 in *.
  pose proof (normalize_absolute_length s3) as H4.
  cbn [List.length] in *. lia.
Qed.

(** What the trimming loops leave. *)
Lemma trimmed_untrimmed_shape : forall fuel rules parentDirectory s t,
  trimmed fuel (untrimmed rules parentDirectory s) = Ret t ->
  S (List.length t) <= List.length (untrimmed rules parentDirectory s) /\
  List.length (Path.join [[]; t]) <= Nat.max 1 (List.length t).
Proof.
  intros fuel rules pd s t H.
  pose proof (untrimmed_has_no_backslash rules pd s) as Hnb.
  unfold untrimmed in H, Hnb |- *.
  destruct (first_separator_head (decode_pass rules s)) as (s1 & E1).
  rewrite E1 in H, Hnb |- *.
  destruct (replace_by_slash_head pd s1) as (s2 & E2).
  rewrite E2 in H, Hnb |- *.
  destruct (replace_by_slash_head separator_run s2) as (s3 & E3).
  rewrite E3 in H, Hnb |- *.
  assert (Hs3 : Forall not_backslash (slash :: s3)).
  { rewrite <- E3. unfold replace. cbn [global separator_run].
    apply separator_run_removes_backslashes. }
  destruct (normalize_absolute s3 Hs3) as (segs & Hclean & Hnorm).
  rewrite Hnorm in H |- *.
  destruct segs as [|seg segs].
  - destruct fuel as [|[|n]]; vm_compute in H; [discriminate| |];
      inversion H; cbn; lia.
  - assert (Hne : seg :: segs <> []) by discriminate.
    apply trimmed_absolute in H; [|assumption|assumption].
    subst t. rewrite (join_clean_segments _ Hne Hclean).
    cbn [List.length]. rewrite length_app. lia.
Qed.

Lemma filter_length : forall (f : ascii -> bool) (l : text),
  List.length (filter f l) <= List.length l.
Proof.
  intros f l. induction l as [|c l IH]; [cbn; lia|].
  cbn [filter]. destruct (f c); cbn [List.length]; lia.
Qed.

End Lengths.

(** X11.  Under the default options a budget of one iteration more than
    the text of the path has characters is enough for the call to return,
    and the returned string is no longer than that text (one character,
    [.], when the text is empty). *)
Theorem X11_input_length_bounds_loops_and_output : forall p s,
  coerce p = inr s ->
  exists out,
    (forall fuel, S (List.length (of_string s)) <= fuel ->
       result (sanitize fuel p VUndefined) = Ret out) /\
    List.length (of_string out) <= Nat.max 1 (List.length (of_string s)).
Proof.
  intros p s Hco.
  pose proof (untrimmed_length (of_string s)) as Hun.
  destruct (sanitize_text_enough _ default_decode default_parentDirectoryRegEx
              default_notAllowedRegEx (of_string s) (le_n _)) as [r Hr].
  exists (to_string r). split.
  - intros fuel Hle.
    rewrite (sanitize_falsy fuel p VUndefined eq_refl), Hco. cbn [result].
    rewrite (sanitize_text_stable _ _ _ _ _ _ Hr fuel) by lia. reflexivity.
  - rewrite of_to_string. unfold sanitize_text in Hr.
    destruct (trimmed _ (untrimmed default_decode default_parentDirectoryRegEx
                           (of_string s))) as [t| |] eqn:Ht; cbn [bind] in Hr;
      try discriminate.
    inversion Hr. rewrite default_filter.
    destruct (trimmed_untrimmed_shape _ _ _ _ _ Ht) as [H1 H2].
    pose proof (filter_length allowed_char (Path.join [[]; t])) as H3.
    lia.
Qed.

Lemma X11_input_length_bounds_loops_and_output_witness :
  exists out,
    (forall fuel, S (List.length (of_string "//a/..//b/"%string)) <= fuel ->
       result (sanitize fuel (VString "//a/..//b/"%string) VUndefined) = Ret out) /\
    List.length (of_string out)
      <= Nat.max 1 (List.length (of_string "//a/..//b/"%string)).
Proof.
  apply (X11_input_length_bounds_loops_and_output
           (VString "//a/..//b/"%string) "//a/..//b/"%string).
  reflexivity.
Defined.

(** ** Slash and backslash are one separator *)

Section SeparatorBlind.
Import JsString RegExp JsValue Sanitizer.

Lemma separator_equivalent_refl : forall s, separator_equivalent s s.
Proof.
  induction s; constructor; [left; reflexivity | assumption].
Qed.

Lemma separator_equivalent_length : forall s s',
  separator_equivalent s s' -> List.length s = List.length s'.
Proof.
  intros s s' H. induction H; cbn [List.length]; congruence.
Qed.

Lemma separator_equivalent_app : forall a a' b b',
  separator_equivalent a a' -> separator_equivalent b b' ->
  separator_equivalent (a ++ b) (a' ++ b').
Proof.
  intros. apply Forall2_app; assumption.
Qed.

Lemma same_class : forall cs x x',
  Bool.eqb (in_class slash cs) (in_class backslash cs) = true ->
  same_or_separators x x' -> in_class x cs = in_class x' cs.
Proof.
  intros cs x x' Hcs [->|[Hx Hx']]; [reflexivity|].
  apply Bool.eqb_prop in Hcs.
  destruct (separator_cases x Hx) as [-> | ->];
    destruct (separator_cases x' Hx') as [-> | ->]; congruence.
Qed.

Lemma same_literal : forall c x x',
  in_class c separators = false ->
  same_or_separators x x' -> Ascii.eqb x c = Ascii.eqb x' c.
Proof.
  intros c x x' Hc [->|[Hx Hx']]; [reflexivity|].
  assert (H : forall y, in_class y separators = true -> Ascii.eqb y c = false).
  { intros y Hy. destruct (Ascii.eqb y c) eqn:E; [|reflexivity].
    apply Ascii.eqb_eq in E. subst y. congruence. }
  rewrite (H x Hx), (H x' Hx'). reflexivity.
Qed.

Lemma star_iter_blind
      (m : bool -> text -> (bool -> text -> option text) -> option text) :
  (forall bol s s' k k',
     separator_equivalent s s' ->
     (forall b t t', separator_equivalent t t' ->
        equivalent_answers (k b t) (k' b t')) ->
     equivalent_answers (m bol s k) (m bol s' k')) ->
  forall k k',
    (forall b t t', separator_equivalent t t' ->
       equivalent_answers (k b t) (k' b t')) ->
    forall n bol s s', separator_equivalent s s' ->
      equivalent_answers (star_iter m k n bol s) (star_iter m k' n bol s').
Proof.
  intros Hm k k' Hk. induction n as [|n IH]; intros bol s s' Hs;
    cbn [star_iter]; [apply Hk; assumption|].
  assert (Hinner :
    equivalent_answers
      (m bol s (fun bol' t =>
                  if List.length t <? List.length s
                  then star_iter m k n bol' t else None))
      (m bol s' (fun bol' t =>
                   if List.length t <? List.length s'
                   then star_iter m k' n bol' t else None))).
  { apply Hm; [assumption|]. intros b t t' Ht.
    rewrite (separator_equivalent_length _ _ Ht),
            (separator_equivalent_length _ _ Hs).
    destruct (List.length t' <? List.length s'); [apply IH; assumption | exact I]. }
  destruct (m bol s _) as [a|]; destruct (m bol s' _) as [a'|];
    cbn [equivalent_answers] in Hinner |- *; try contradiction.
  - exact Hinner.
  - apply Hk. assumption.
Qed.

(** A separator-blind pattern matches equivalent texts alike. *)
Lemma rmatch_blind : forall r,
  separator_blind r = true ->
  forall bol s s' k k',
    separator_equivalent s s' ->
    (forall b t t', separator_equivalent t t' ->
       equivalent_answers (k b t) (k' b t')) ->
    equivalent_answers (rmatch r bol s k) (rmatch r bol s' k').
Proof.
  induction r as [| |c|cs|a IHa b IHb|a IHa b IHb|a IHa|a IHa];
    intros Hr bol s s' k k' Hs Hk; cbn [separator_blind] in Hr.
  - apply Hk. assumption.
  - cbn [rmatch]. destruct bol; [apply Hk; assumption | exact I].
  - cbn [rmatch]. destruct Hs as [|x x' s s' Hx Hs]; [exact I|].
    rewrite (same_literal c x x') by
      (assumption || (destruct (in_class c separators); [discriminate | reflexivity])).
    destruct (Ascii.eqb x' c); [apply Hk; assumption | exact I].
  - cbn [rmatch]. destruct Hs as [|x x' s s' Hx Hs]; [exact I|].
    rewrite (same_class cs x x' Hr Hx).
    destruct (in_class x' cs); [apply Hk; assumption | exact I].
  - apply andb_prop in Hr. destruct Hr as [Ha Hb].
    change (equivalent_answers
              (rmatch a bol s (fun bol' t => rmatch b bol' t k))
              (rmatch a bol s' (fun bol' t => rmatch b bol' t k'))).
    apply IHa; [assumption | assumption |].
    intros b0 t t' Ht. apply IHb; assumption.
  - apply andb_prop in Hr. destruct Hr as [Ha Hb].
    change (equivalent_answers
              (match rmatch a bol s k with
               | Some t => Some t
               | None => rmatch b bol s k
               end)
              (match rmatch a bol s' k' with
               | Some t => Some t
               | None => rmatch b bol s' k'
               end)).
    pose proof (IHa Ha bol s s' k k' Hs Hk) as H1.
    destruct (rmatch a bol s k); destruct (rmatch a bol s' k');
      cbn [equivalent_answers] in H1 |- *; try contradiction.
    + exact H1.
    + apply IHb; assumption.
  - change (equivalent_answers
              (match rmatch a bol s k with
               | Some t => Some t
               | None => k bol s
               end)
              (match rmatch a bol s' k' with
               | Some t => Some t
               | None => k' bol s'
               end)).
    pose proof (IHa Hr bol s s' k k' Hs Hk) as H1.
    destruct (rmatch a bol s k); destruct (rmatch a bol s' k');
      cbn [equivalent_answers] in H1 |- *; try contradiction.
    + exact H1.
    + apply Hk. assumption.
  - change (equivalent_answers
              (star_iter (rmatch a) k (List.length s) bol s)
              (star_iter (rmatch a) k' (List.length s') bol s')).
    rewrite (separator_equivalent_length _ _ Hs).
    apply star_iter_blind; try assumption.
    intros bol0 t t' k0 k0' Ht Hk0. apply IHa; assumption.
Qed.

Lemma match_here_blind : forall r bol s s',
  separator_blind r = true -> separator_equivalent s s' ->
  equivalent_answers (match_here r bol s) (match_here r bol s').
Proof.
  intros r bol s s' Hr Hs. unfold match_here.
  apply rmatch_blind; [assumption | assumption |].
  intros b t t' Ht. exact Ht.
Qed.

Lemma replace_global_blind : forall r by_,
  separator_blind r = true ->
  forall s s', separator_equivalent s s' ->
  forall bol skip,
    separator_equivalent (replace_global r by_ bol skip s)
                         (replace_global r by_ bol skip s').
Proof.
  intros r by_ Hr s s' Hs. induction Hs as [|x x' s s' Hx Hs IH];
    intros bol skip; cbn [replace_global].
  - destruct skip; [|constructor].
    pose proof (match_here_blind r bol [] [] Hr (Forall2_nil _)) as H.
    destruct (match_here r bol []); [apply separator_equivalent_refl | constructor].
  - destruct skip as [|n]; [|apply IH].
    assert (Hxs : separator_equivalent (x :: s) (x' :: s'))
      by (constructor; assumption).
    pose proof (match_here_blind r bol _ _ Hr Hxs) as H.
    destruct (match_here r bol (x :: s)) as [rest|];
      destruct (match_here r bol (x' :: s')) as [rest'|];
      cbn [equivalent_answers] in H; try contradiction.
    + rewrite (separator_equivalent_length _ _ H),
              (separator_equivalent_length _ _ Hxs).
      destruct (List.length (x' :: s') - List.length rest');
        apply separator_equivalent_app;
        try apply separator_equivalent_refl; [constructor; [assumption|]|];
        apply IH.
    + constructor; [assumption | apply IH].
Qed.

Lemma replace_first_blind : forall r by_,
  separator_blind r = true ->
  forall s s', separator_equivalent s s' ->
  forall bol,
    separator_equivalent (replace_first r by_ bol s)
                         (replace_first r by_ bol s').
Proof.
  intros r by_ Hr s s' Hs. induction Hs as [|x x' s s' Hx Hs IH];
    intro bol; cbn [replace_first].
  - pose proof (match_here_blind r bol [] [] Hr (Forall2_nil _)) as H.
    destruct (match_here r bol []); [apply separator_equivalent_refl | constructor].
  - assert (Hxs : separator_equivalent (x :: s) (x' :: s'))
      by (constructor; assumption).
    pose proof (match_here_blind r bol _ _ Hr Hxs) as H.
    destruct (match_here r bol (x :: s)) as [rest|];
      destruct (match_here r bol (x' :: s')) as [rest'|];
      cbn [equivalent_answers] in H; try contradiction.
    + apply separator_equivalent_app;
        [apply separator_equivalent_refl | assumption].
    + constructor; [assumption | apply IH].
Qed.

Lemma replace_blind : forall rx by_ s s',
  separator_blind (pattern rx) = true -> separator_equivalent s s' ->
  separator_equivalent (replace rx by_ s) (replace rx by_ s').
Proof.
  intros rx by_ s s' Hr Hs. unfold replace. destruct (global rx).
  - apply replace_global_blind; assumption.
  - apply replace_first_blind; assumption.
Qed.

Lemma decode_pass_blind : forall rules s s',
  Forall (fun d => separator_blind (pattern (regex d)) = true) rules ->
  separator_equivalent s s' ->
  separator_equivalent (decode_pass rules s) (decode_pass rules s').
Proof.
  unfold decode_pass. induction rules as [|d rules IH]; intros s s' Hr Hs;
    cbn [fold_left]; [assumption|].
  inversion Hr; subst. apply IH; [assumption|].
  apply replace_blind; assumption.
Qed.

Lemma equivalent_without_backslash : forall s s',
  separator_equivalent s s' ->
  Forall not_backslash s -> Forall not_backslash s' -> s = s'.
Proof.
  intros s s' H. induction H as [|x x' s s' Hx Hs IH]; intros H1 H2;
    [reflexivity|].
  inversion H1; subst. inversion H2; subst. f_equal; [|apply IH; assumption].
  destruct Hx as [->|[Hx Hx']]; [reflexivity|].
  destruct (separator_cases x Hx) as [-> | ->];
    destruct (separator_cases x' Hx') as [-> | ->];
    try reflexivity; contradiction.
Qed.

(** The text that reaches the trimming loops is the same for two inputs
    that differ only in which separator they write. *)
Lemma untrimmed_blind : forall rules parentDirectory s s',
  Forall (fun d => separator_blind (pattern (regex d)) = true) rules ->
  separator_blind (pattern parentDirectory) = true ->
  separator_equivalent s s' ->
  untrimmed rules parentDirectory s = untrimmed rules parentDirectory s'.
Proof.
  intros rules pd s s' Hrules Hpd Hs. unfold untrimmed. f_equal.
  apply equivalent_without_backslash.
  - apply replace_blind; [reflexivity|].
    apply replace_blind; [assumption|].
    apply replace_blind; [reflexivity|].
    apply decode_pass_blind; assumption.
  - unfold replace at 1. cbn [global separator_run].
    apply separator_run_removes_backslashes.
  - unfold replace at 1. cbn [global separator_run].
    apply separator_run_removes_backslashes.
Qed.

Lemma linuxSlash_equivalent : forall s, separator_equivalent s (linuxSlash s).
Proof.
  intro s. unfold linuxSlash, replace. cbn [global pattern].
  rewrite linuxSlash_map.
  induction s as [|c s IH]; constructor; [|assumption].
  destruct (Ascii.eqb c backslash) eqn:E; [|left; reflexivity].
  apply Ascii.eqb_eq in E. subst c. right. split; reflexivity.
Qed.

End SeparatorBlind.

(** X12.  Under the default options [/] and backslash are one separator:
    two paths that differ only in which of the two they write at some
    places give the same result, for every budget; in particular a path
    and its [linuxSlash] form do. *)
Theorem X12_slash_and_backslash_are_interchangeable : forall fuel s s',
  separator_equivalent (of_string s) (of_string s') ->
  result (sanitize fuel (VString s) VUndefined)
    = result (sanitize fuel (VString s') VUndefined) /\
  result (sanitize fuel (VString s) VUndefined)
    = result (sanitize fuel
                (VString (to_string (linuxSlash (of_string s)))) VUndefined).
Proof.
  assert (H : forall fuel s s',
            separator_equivalent (of_string s) (of_string s') ->
            result (sanitize fuel (VString s) VUndefined)
              = result (sanitize fuel (VString s') VUndefined)).
  { intros fuel s s' Hs.
    rewrite !(sanitize_falsy fuel _ VUndefined eq_refl).
    cbn [coerce result]. unfold sanitize_text.
    rewrite (untrimmed_blind default_decode default_parentDirectoryRegEx
               (of_string s) (of_string s')); [reflexivity | | reflexivity | exact Hs].
    repeat constructor. }
  intros fuel s s' Hs. split; [apply H; exact Hs|].
  apply H. rewrite of_to_string. apply linuxSlash_equivalent.
Qed.

Lemma X12_slash_and_backslash_are_interchangeable_witness :
  result (sanitize 9 (VString "..\a/b\"%string) VUndefined)
    = result (sanitize 9 (VString "../a\b/"%string) VUndefined) /\
  result (sanitize 9 (VString "..\a/b\"%string) VUndefined)
    = result (sanitize 9
                (VString (to_string (linuxSlash (of_string "..\a/b\"%string))))
                VUndefined).
Proof.
  apply (X12_slash_and_backslash_are_interchangeable
           9 "..\a/b\"%string "../a\b/"%string).
  repeat constructor; (left; reflexivity) || (right; split; reflexivity).
Defined.

(** ** The text before the last replacement, whatever the options *)

(** X13.  Whatever the decode rules and the parent-directory pattern, the
    two trimming loops end, and the text that [path.join] then hands to
    the last replacement is either [.] or a relative path whose segments
    are non-empty, are neither [.] nor [..] and hold no backslash: it has
    no separator at either end. *)
Theorem X13_text_before_last_replacement_is_clean :
  forall rules parentDirectory s,
  exists N t,
    (forall fuel, N <= fuel ->
       trimmed fuel (untrimmed rules parentDirectory s) = Ret t) /\
    starts_with_separator (Path.join [[]; t]) = false /\
    ends_with_separator (Path.join [[]; t]) = false /\
    (Path.join [[]; t] = [dot] \/
     forallb clean_segment_b (Path.split (Path.join [[]; t])) = true).
Proof.
  intros rules pd s.
  set (N := List.length (untrimmed rules pd s)).
  destruct (trimmed_enough N (untrimmed rules pd s) (le_n _)) as (t & Ht & _).
  exists N, t. split.
  - intros fuel Hle. exact (trimmed_stable _ _ _ Ht fuel Hle).
  - destruct (text_before_filtering _ _ _ _ _ Ht) as (segs & Hclean & Hj).
    unfold text in *. rewrite Hj. destruct segs as [|seg segs].
    + repeat split. left. reflexivity.
    + assert (Hne : seg :: segs <> []) by discriminate.
      destruct (join_segments_last _ Hne Hclean) as (l & c & Hl & Hc).
      destruct (join_segments_first _ Hne Hclean) as (c0 & l0 & Hf & Hc0).
      split; [|split].
      * rewrite Hf, starts_with_separator_first. exact Hc0.
      * rewrite Hl, ends_with_separator_last. exact Hc.
      * right. rewrite (split_join_segments _ Hne Hclean).
        apply forallb_forall. intros x Hx. apply clean_segment_decide.
        rewrite Forall_forall in Hclean. exact (Hclean x Hx).
Qed.
